(** * dpdk_ring: the ring set-up code of rte_ring.cc over rte_common.h

    A shallow embedding of [rte_ring_get_memsize], [rte_ring_init],
    [rte_ring_create] and [rte_ring_free] (src/rte_ring.cc) and of the macros
    and inline functions of src/rte_common.h they use.

    Data model (LP64, the x86-64 target of the inline assembly in
    rte_common.h): [unsigned] and [uint32_t] are 32 bits wide, [size_t] and
    [ssize_t] 64 bits, [sizeof(void * )] is 8.  Machine integers are values of
    [Z]; every place where the C arithmetic wraps is written out with
    [wrap32], [to_size] or [to_ssize].  Pointers are addresses in [Z], [NULL]
    is 0. *)

From stdpp Require Import base numbers list gmap strings.
From Stdlib Require Import ZArith Lia.

Local Open Scope Z_scope.

(** ** Machine integers *)

(** Arithmetic on [unsigned] / [uint32_t]. *)
Definition wrap32 (z : Z) : Z := z mod 2 ^ 32.

(** Arithmetic on [size_t]. *)
Definition to_size (z : Z) : Z := z mod 2 ^ 64.

(** Conversion to [ssize_t] (two's complement). *)
Definition to_ssize (z : Z) : Z := (z + 2 ^ 63) mod 2 ^ 64 - 2 ^ 63.

(** The values an [unsigned] argument can take. *)
Definition uint32 (z : Z) : Prop := 0 <= z < 2 ^ 32.

Definition sizeof_voidp : Z := 8.

(** errno.h on Linux. *)
Definition EINVAL : Z := 22.

Definition NULL : Z := 0.

(** ** rte_common.h *)

Definition RTE_CACHE_LINE_SIZE : Z := 64.

Definition RTE_CACHE_LINE_MASK : Z := RTE_CACHE_LINE_SIZE - 1.

(** [RTE_ALIGN_FLOOR(val, align)]; [cast] is the conversion [(typeof(val))]. *)
Definition RTE_ALIGN_FLOOR (cast : Z -> Z) (val align : Z) : Z :=
  cast (Z.land val (Z.lnot (cast (align - 1)))).

Definition RTE_ALIGN_CEIL (cast : Z -> Z) (val align : Z) : Z :=
  RTE_ALIGN_FLOOR cast (val + (cast align - 1)) align.

Definition RTE_ALIGN (cast : Z -> Z) (val align : Z) : Z :=
  RTE_ALIGN_CEIL cast val align.

(** [POWEROF2(x)] at type [unsigned]: [((x)-1) & (x)) == 0]. *)
Definition POWEROF2 (x : Z) : bool := Z.land (wrap32 (x - 1)) x =? 0.

Definition rte_combine32ms1b (x : Z) : Z :=
  let x := Z.lor x (Z.shiftr x 1) in
  let x := Z.lor x (Z.shiftr x 2) in
  let x := Z.lor x (Z.shiftr x 4) in
  let x := Z.lor x (Z.shiftr x 8) in
  let x := Z.lor x (Z.shiftr x 16) in
  x.

Definition rte_align32pow2 (x : Z) : Z :=
  let x := wrap32 (x - 1) in
  let x := rte_combine32ms1b x in
  wrap32 (x + 1).

(** What the comments of rte_common.h and rte_ring.cc mean by
    "a power of 2". *)
Definition is_pow2 (z : Z) : Prop := exists k : Z, 0 <= k /\ z = 2 ^ k.

(** [p] is the least power of two that is at least [x]. *)
Definition least_pow2_ge (x p : Z) : Prop :=
  is_pow2 p /\ x <= p /\ forall q : Z, is_pow2 q -> x <= q -> p <= q.

(** [a] collects, at every position [i], the bits [i .. i + w - 1] of [y]. *)
Definition smeared (w a y : Z) : Prop :=
  forall i : Z, 0 <= i ->
    Z.testbit a i = true <-> exists j : Z, i <= j < i + w /\ Z.testbit y j = true.

(** ** rte_ring.h

    The header is not among the sources.  Its constants are taken as
    parameters; the fields of [struct rte_ring] are the ones rte_ring.cc
    reads and writes ([r->prod.head] is [prod_head], and so on). *)

Class rte_ring_h := {
  RTE_RING_SZ_MASK : Z;
  RING_F_SP_ENQ : Z;
  RING_F_SC_DEQ : Z;
  RING_F_EXACT_SZ : Z;
  __IS_SP : Z;
  __IS_MP : Z;
  __IS_SC : Z;
  __IS_MC : Z;
  sizeof_rte_ring : Z
}.

Record rte_ring := Rte_ring {
  r_flags : Z;
  r_size : Z;
  r_mask : Z;
  r_capacity : Z;
  prod_head : Z;
  prod_tail : Z;
  prod_single : Z;
  cons_head : Z;
  cons_tail : Z;
  cons_single : Z
}.

(** [memset(r, 0, sizeof( *r))]. *)
Definition zeroed : rte_ring := Rte_ring 0 0 0 0 0 0 0 0 0 0.

Definition set_flags (v : Z) (s : rte_ring) : rte_ring :=
  Rte_ring v (r_size s) (r_mask s) (r_capacity s) (prod_head s) (prod_tail s)
    (prod_single s) (cons_head s) (cons_tail s) (cons_single s).

Definition set_size (v : Z) (s : rte_ring) : rte_ring :=
  Rte_ring (r_flags s) v (r_mask s) (r_capacity s) (prod_head s) (prod_tail s)
    (prod_single s) (cons_head s) (cons_tail s) (cons_single s).

Definition set_mask (v : Z) (s : rte_ring) : rte_ring :=
  Rte_ring (r_flags s) (r_size s) v (r_capacity s) (prod_head s) (prod_tail s)
    (prod_single s) (cons_head s) (cons_tail s) (cons_single s).

Definition set_capacity (v : Z) (s : rte_ring) : rte_ring :=
  Rte_ring (r_flags s) (r_size s) (r_mask s) v (prod_head s) (prod_tail s)
    (prod_single s) (cons_head s) (cons_tail s) (cons_single s).

Definition set_prod_head (v : Z) (s : rte_ring) : rte_ring :=
  Rte_ring (r_flags s) (r_size s) (r_mask s) (r_capacity s) v (prod_tail s)
    (prod_single s) (cons_head s) (cons_tail s) (cons_single s).

Definition set_prod_tail (v : Z) (s : rte_ring) : rte_ring :=
  Rte_ring (r_flags s) (r_size s) (r_mask s) (r_capacity s) (prod_head s) v
    (prod_single s) (cons_head s) (cons_tail s) (cons_single s).

Definition set_prod_single (v : Z) (s : rte_ring) : rte_ring :=
  Rte_ring (r_flags s) (r_size s) (r_mask s) (r_capacity s) (prod_head s)
    (prod_tail s) v (cons_head s) (cons_tail s) (cons_single s).

Definition set_cons_head (v : Z) (s : rte_ring) : rte_ring :=
  Rte_ring (r_flags s) (r_size s) (r_mask s) (r_capacity s) (prod_head s)
    (prod_tail s) (prod_single s) v (cons_tail s) (cons_single s).

Definition set_cons_tail (v : Z) (s : rte_ring) : rte_ring :=
  Rte_ring (r_flags s) (r_size s) (r_mask s) (r_capacity s) (prod_head s)
    (prod_tail s) (prod_single s) (cons_head s) v (cons_single s).

Definition set_cons_single (v : Z) (s : rte_ring) : rte_ring :=
  Rte_ring (r_flags s) (r_size s) (r_mask s) (r_capacity s) (prod_head s)
    (prod_tail s) (prod_single s) (cons_head s) (cons_tail s) v.

(** ** The collaborators and the program state

    [my_malloc], [my_free] and [my_printf_error] belong to the host (my_sys.h).
    The host is abstract: an environment of some type [E] answers
    [my_malloc] with an address ([NULL] on failure).  Every call to the host
    is recorded in [calls], so that what the code asks of it can be
    observed. *)

Inductive call : Type :=
  | Call_my_malloc (size : Z) (result : Z)
  | Call_my_free (ptr : Z)
  | Call_my_printf_error (format : string) (args : list Z).

Class my_sys (E : Type) := {
  my_malloc : Z -> E -> Z * E;
  my_free : Z -> E -> E;
  my_printf_error : string -> list Z -> E -> E
}.

Record world (E : Type) := World {
  env : E;
  rings : gmap Z rte_ring;
  calls : list call
}.

Arguments World {E} _ _ _.
Arguments env {E} _.
Arguments rings {E} _.
Arguments calls {E} _.

(** State passing over [world]. *)
Definition M (E A : Type) : Type := world E -> A * world E.

Definition ret {E A : Type} (a : A) : M E A := fun w => (a, w).

Definition bind {E A B : Type} (m : M E A) (k : A -> M E B) : M E B :=
  fun w => let (a, w') := m w in k a w'.

Notation "x <- m ;; k" := (bind m (fun x => k))
  (at level 90, m at next level, right associativity).
Notation "m ;;; k" := (bind m (fun _ => k))
  (at level 90, right associativity).

Section Host.
Context {E : Type} `{my_sys E}.

Definition call_my_malloc (size : Z) : M E Z := fun w =>
  let (p, e) := my_malloc size (env w) in
  (p, World e (rings w) (calls w ++ [Call_my_malloc size p])).

Definition call_my_free (ptr : Z) : M E unit := fun w =>
  (tt, World (my_free ptr (env w)) (delete ptr (rings w))
         (calls w ++ [Call_my_free ptr])).

Definition call_my_printf_error (format : string) (args : list Z) : M E unit :=
  fun w =>
    (tt, World (my_printf_error format args (env w)) (rings w)
           (calls w ++ [Call_my_printf_error format args])).

(** [memset(r, 0, sizeof( *r))] *)
Definition memset_ring (r : Z) : M E unit := fun w =>
  (tt, World (env w) (<[r := zeroed]> (rings w)) (calls w)).

(** An assignment [r->field = ...] through the pointer [r]. *)
Definition assign (r : Z) (f : rte_ring -> rte_ring) : M E unit := fun w =>
  (tt, World (env w) (alter f r (rings w)) (calls w)).
End Host.

(** ** rte_ring.cc *)

Section RteRing.
Context `{rte_ring_h} {E : Type} `{my_sys E}.

Definition invalid_size_memsize : string :=
  "Requested size is invalid, must be power of 2, and do not exceed the size limit %u".

Definition invalid_size_init : string :=
  "Requested size is invalid, must be power of 2, and not exceed the size limit %u".

Definition rte_ring_get_memsize (count : Z) : M E Z :=
  if negb (POWEROF2 count) || (RTE_RING_SZ_MASK <? count) then
    call_my_printf_error invalid_size_memsize [RTE_RING_SZ_MASK] ;;;
    ret (- EINVAL)
  else
    let sz := to_ssize (to_size (sizeof_rte_ring + to_size (count * sizeof_voidp))) in
    let sz := RTE_ALIGN to_ssize sz RTE_CACHE_LINE_SIZE in
    ret sz.

Definition rte_ring_init (r count flags : Z) : M E Z :=
  memset_ring r ;;;
  assign r (set_flags flags) ;;;
  assign r (set_prod_single
              (if Z.land flags RING_F_SP_ENQ =? 0 then __IS_MP else __IS_SP)) ;;;
  assign r (set_cons_single
              (if Z.land flags RING_F_SC_DEQ =? 0 then __IS_MC else __IS_SC)) ;;;
  let finish : M E Z :=
    assign r (set_cons_head 0) ;;;
    assign r (set_prod_head 0) ;;;
    assign r (set_cons_tail 0) ;;;
    assign r (set_prod_tail 0) ;;;
    ret 0 in
  if negb (Z.land flags RING_F_EXACT_SZ =? 0) then
    assign r (set_size (rte_align32pow2 (wrap32 (count + 1)))) ;;;
    assign r (fun s => set_mask (wrap32 (r_size s - 1)) s) ;;;
    assign r (set_capacity count) ;;;
    finish
  else if negb (POWEROF2 count) || (RTE_RING_SZ_MASK <? count) then
    call_my_printf_error invalid_size_init [RTE_RING_SZ_MASK] ;;;
    ret (- EINVAL)
  else
    assign r (set_size count) ;;;
    assign r (set_mask (wrap32 (count - 1))) ;;;
    assign r (fun s => set_capacity (r_mask s) s) ;;;
    finish.

Definition rte_ring_free (r : Z) : M E unit :=
  if r =? NULL then ret tt
  else call_my_free r.

Definition rte_ring_create (count flags : Z) : M E Z :=
  let requested_count := count in
  let count :=
    if negb (Z.land flags RING_F_EXACT_SZ =? 0)
    then rte_align32pow2 (wrap32 (count + 1))
    else count in
  ring_size <- rte_ring_get_memsize count ;;
  if ring_size <? 0 then ret NULL
  else
    r <- call_my_malloc ring_size ;;
    if r =? NULL then
      call_my_printf_error "Cannot reserve memory" [] ;;;
      ret NULL
    else
      rc <- rte_ring_init r requested_count flags ;;
      if negb (rc =? 0) then
        rte_ring_free r ;;;
        ret NULL
      else ret r.
End RteRing.

(** ** Enqueue and dequeue

    The enqueue and dequeue operations live in rte_ring.h, which is not among
    the sources.  They are taken from sections 3 and 4.3 to 4.6 of the
    specification, for one thread running the operations one after another.
    In such a run nobody else can move a cursor: a compare-and-swap that
    fails, or a commit that finds the tail different from the claimed head,
    would retry for ever, which is the outcome [Spins]. *)

(** Modelled from the spec: the ring of section 3, absent from the sources
    with rte_ring.h: the structure and its slot array of pointer-sized
    cells. *)
Record Ring := MkRing {
  hdr : rte_ring;
  slots : list Z
}.

(** Modelled from the spec: the modes of section 3 (rte_ring.h is missing). *)
Inductive mode : Type := Single | Multi.

(** Modelled from the spec: the fixed and burst variants of section 4.6
    (rte_ring.h is missing). *)
Inductive behavior : Type := Fixed | Burst.

(** Modelled from the spec: the outcomes of section 7 (rte_ring.h is
    missing), and [Spins] for a retry that nobody can end. *)
Inductive outcome (A : Type) : Type :=
  | Done (a : A)
  | RingFull
  | RingEmpty
  | Spins.

Arguments Done {A} _.
Arguments RingFull {A}.
Arguments RingEmpty {A}.
Arguments Spins {A}.

(** Modelled from the spec: the compare-and-swap of section 4.3, step 4
    (rte_ring.h is missing), on the current value of the cell. *)
Definition compareAndSwap (cell expected new : Z) : bool * Z :=
  if cell =? expected then (true, new) else (false, cell).

(** Modelled from the spec: section 4.4 (rte_ring.h is missing): the slot of
    counter value [oldHead + k] is [(oldHead + k) & mask], the sum taken in
    32 bits. *)
Definition slot_of (msk oldHead k : Z) : nat :=
  Z.to_nat (Z.land (wrap32 (oldHead + k)) msk).

(** Modelled from the spec: the write of section 4.4 (rte_ring.h is
    missing), item [k] going to slot [(oldHead + k) & mask]. *)
Fixpoint write_slots (msk oldHead k : Z) (items cells : list Z) : list Z :=
  match items with
  | [] => cells
  | x :: rest =>
      write_slots msk oldHead (k + 1) rest (<[slot_of msk oldHead k := x]> cells)
  end.

(** Modelled from the spec: the read of section 4.4 (rte_ring.h is missing),
    from the slots [(oldHead + k) & mask] in increasing [k]. *)
Fixpoint read_slots (msk oldHead k : Z) (n : nat) (cells : list Z) : list Z :=
  match n with
  | O => []
  | S n' =>
      default 0 (cells !! slot_of msk oldHead k)
        :: read_slots msk oldHead (k + 1) n' cells
  end.

(** Modelled from the spec: step 3 of the claim phase, section 4.3
    (rte_ring.h is missing): the number of slots granted, if any. *)
Definition granted (beh : behavior) (available n : Z) : option Z :=
  if available <? n then
    match beh with
    | Fixed => None
    | Burst => Some available
    end
  else Some n.

Section Protocol.
Context `{rte_ring_h}.

(** Modelled from the spec: [producerMode] of section 3 (rte_ring.h is
    missing), read off the [single] field [rte_ring_init] stores. *)
Definition producerMode (s : rte_ring) : mode :=
  if prod_single s =? __IS_SP then Single else Multi.

(** Modelled from the spec: [consumerMode] of section 3 (rte_ring.h is
    missing), read off the [single] field [rte_ring_init] stores. *)
Definition consumerMode (s : rte_ring) : mode :=
  if cons_single s =? __IS_SC then Single else Multi.

(** Modelled from the spec: the claim phase of section 4.3 on the producer
    side (rte_ring.h is missing): the old head, the number of slots granted
    and the header with the head advanced. *)
Definition claim_producer (beh : behavior) (n : Z) (s : rte_ring)
  : outcome (Z * Z * rte_ring) :=
  let oldHead := prod_head s in
  let tail := cons_tail s in
  let freeEntries := wrap32 (r_capacity s - wrap32 (oldHead - tail)) in
  match granted beh freeEntries n with
  | None => RingFull
  | Some n =>
      match producerMode s with
      | Single => Done (oldHead, n, set_prod_head (wrap32 (oldHead + n)) s)
      | Multi =>
          let (swapped, h) :=
            compareAndSwap (prod_head s) oldHead (wrap32 (oldHead + n)) in
          if swapped then Done (oldHead, n, set_prod_head h s) else Spins
      end
  end.

(** Modelled from the spec: the claim phase of section 4.3 on the consumer
    side (rte_ring.h is missing), bounded by the published data. *)
Definition claim_consumer (beh : behavior) (n : Z) (s : rte_ring)
  : outcome (Z * Z * rte_ring) :=
  let oldHead := cons_head s in
  let tail := prod_tail s in
  let entries := wrap32 (tail - oldHead) in
  match granted beh entries n with
  | None => RingEmpty
  | Some n =>
      match consumerMode s with
      | Single => Done (oldHead, n, set_cons_head (wrap32 (oldHead + n)) s)
      | Multi =>
          let (swapped, h) :=
            compareAndSwap (cons_head s) oldHead (wrap32 (oldHead + n)) in
          if swapped then Done (oldHead, n, set_cons_head h s) else Spins
      end
  end.

(** Modelled from the spec: the commit phase of section 4.5 (rte_ring.h is
    missing): publish the claimed range through the tail. *)
Definition commit_producer (oldHead n : Z) (s : rte_ring) : outcome rte_ring :=
  match producerMode s with
  | Single => Done (set_prod_tail (wrap32 (oldHead + n)) s)
  | Multi =>
      if prod_tail s =? oldHead
      then Done (set_prod_tail (wrap32 (oldHead + n)) s)
      else Spins
  end.

(** Modelled from the spec: the commit phase of section 4.5 on the consumer
    side (rte_ring.h is missing). *)
Definition commit_consumer (oldHead n : Z) (s : rte_ring) : outcome rte_ring :=
  match consumerMode s with
  | Single => Done (set_cons_tail (wrap32 (oldHead + n)) s)
  | Multi =>
      if cons_tail s =? oldHead
      then Done (set_cons_tail (wrap32 (oldHead + n)) s)
      else Spins
  end.

(** Modelled from the spec: the enqueue of section 4.6 (rte_ring.h is
    missing): claim, write the granted prefix of [items], commit.  The result
    is the number of items enqueued and the ring afterwards. *)
Definition enqueue (beh : behavior) (items : list Z) (q : Ring)
  : outcome (Z * Ring) :=
  match claim_producer beh (Z.of_nat (length items)) (hdr q) with
  | Done (oldHead, n, s) =>
      let cells :=
        write_slots (r_mask s) oldHead 0 (take (Z.to_nat n) items) (slots q) in
      match commit_producer oldHead n s with
      | Done s' => Done (n, MkRing s' cells)
      | RingFull => RingFull
      | RingEmpty => RingEmpty
      | Spins => Spins
      end
  | RingFull => RingFull
  | RingEmpty => RingEmpty
  | Spins => Spins
  end.

(** Modelled from the spec: the dequeue of section 4.6 (rte_ring.h is
    missing): claim, read the granted slots, commit.  The result is the items
    read and the ring afterwards. *)
Definition dequeue (beh : behavior) (n : Z) (q : Ring)
  : outcome (list Z * Ring) :=
  match claim_consumer beh n (hdr q) with
  | Done (oldHead, n, s) =>
      let items := read_slots (r_mask s) oldHead 0 (Z.to_nat n) (slots q) in
      match commit_consumer oldHead n s with
      | Done s' => Done (items, MkRing s' (slots q))
      | RingFull => RingFull
      | RingEmpty => RingEmpty
      | Spins => Spins
      end
  | RingFull => RingFull
  | RingEmpty => RingEmpty
  | Spins => Spins
  end.

(** Modelled from the spec: [enqueueFixed] of section 6 (rte_ring.h is
    missing). *)
Definition enqueueFixed (items : list Z) (q : Ring) : outcome (Z * Ring) :=
  enqueue Fixed items q.

(** Modelled from the spec: [enqueueBurst] of section 6 (rte_ring.h is
    missing). *)
Definition enqueueBurst (items : list Z) (q : Ring) : outcome (Z * Ring) :=
  enqueue Burst items q.

(** Modelled from the spec: [dequeueFixed] of section 6 (rte_ring.h is
    missing). *)
Definition dequeueFixed (n : Z) (q : Ring) : outcome (list Z * Ring) :=
  dequeue Fixed n q.

(** Modelled from the spec: [dequeueBurst] of section 6 (rte_ring.h is
    missing). *)
Definition dequeueBurst (n : Z) (q : Ring) : outcome (list Z * Ring) :=
  dequeue Burst n q.

(** The ring a caller holds after an operation: a failed operation leaves
    it as it was. *)
Definition ring_after {A : Type} (q : Ring) (o : outcome (A * Ring)) : Ring :=
  match o with
  | Done (_, q') => q'
  | _ => q
  end.

(** Enqueue [items], then dequeue [n] items: what the dequeue returns. *)
Definition enqueue_then_dequeue (items : list Z) (n : Z) (q : Ring)
  : outcome (list Z) :=
  match dequeueFixed n (ring_after q (enqueueFixed items q)) with
  | Done (got, _) => Done got
  | RingFull => RingFull
  | RingEmpty => RingEmpty
  | Spins => Spins
  end.
End Protocol.

(** Modelled from the spec: a ring as the data model of section 3 describes
    it (rte_ring.h is missing): [size] a power of
    two with one storage cell per index, [mask = size - 1], a capacity below
    [size], 32-bit cursors. *)
Record ring_wf (q : Ring) : Prop := {
  wf_size : exists m : Z, 0 <= m <= 31 /\ r_size (hdr q) = 2 ^ m;
  wf_mask : r_mask (hdr q) = r_size (hdr q) - 1;
  wf_capacity : 0 <= r_capacity (hdr q) <= r_mask (hdr q);
  wf_slots : Z.of_nat (length (slots q)) = r_size (hdr q);
  wf_prod_head : uint32 (prod_head (hdr q))
}.

(** Nothing stored and nothing in flight: the four cursors coincide. *)
Definition ring_idle (q : Ring) : Prop :=
  prod_tail (hdr q) = prod_head (hdr q)
  /\ cons_head (hdr q) = prod_head (hdr q)
  /\ cons_tail (hdr q) = prod_head (hdr q).

(** ** A concrete header and host

    The values upstream DPDK gives the constants of rte_ring.h, a structure
    size that passes the build-time checks of [rte_ring_init], and a host
    that hands out increasing addresses.  They serve to run the model. *)

Definition dpdk_ring_h : rte_ring_h := {|
  RTE_RING_SZ_MASK := 0x7fffffff;
  RING_F_SP_ENQ := 1;
  RING_F_SC_DEQ := 2;
  RING_F_EXACT_SZ := 4;
  __IS_SP := 1;
  __IS_MP := 0;
  __IS_SC := 1;
  __IS_MC := 0;
  sizeof_rte_ring := 192
|}.

Definition bump_host : my_sys Z := {|
  my_malloc := fun size next => (next, next + size);
  my_free := fun _ next => next;
  my_printf_error := fun _ _ next => next
|}.

Definition boot : world Z := World 4096 ∅ [].

(** The ring a caller gets from [rte_ring_init] on a block with [size]
    zero-filled slots behind the structure, under the concrete header. *)
Definition fresh_ring (count flags : Z) : Ring :=
  let w := (@rte_ring_init dpdk_ring_h Z bump_host 4096 count flags boot).2 in
  let s := default zeroed (rings w !! 4096) in
  MkRing s (replicate (Z.to_nat (r_size s)) 0).

(** A state in which the block at 4096 already holds a ring in use. *)
Definition used_block : world Z :=
  World 8192 {[ 4096 := Rte_ring 4 8 7 4 6 6 0 2 2 0 ]} [].

(** * Properties *)

(** ** Bits *)

Lemma wrap32_small (z : Z) : uint32 z -> wrap32 z = z.
Proof. intros Hz. unfold wrap32. apply Z.mod_small. exact Hz. Qed.

Lemma wrap32_range (z : Z) : uint32 (wrap32 z).
Proof. unfold uint32, wrap32. apply Z.mod_pos_bound. lia. Qed.

Lemma is_pow2_pos (z : Z) : is_pow2 z -> 0 < z.
Proof. intros (k & Hk & ->). apply Z.pow_pos_nonneg; lia. Qed.

Lemma pow2_land_pred (k : Z) : 0 <= k -> Z.land (2 ^ k - 1) (2 ^ k) = 0.
Proof.
  intros Hk. replace (2 ^ k - 1) with (Z.ones k) by (rewrite Z.ones_equiv; lia).
  rewrite Z.land_comm, Z.land_ones by assumption. apply Z.mod_same.
  apply Z.pow_nonzero; lia.
Qed.

(** For a positive argument the macro decides "power of two"; it also
    accepts 0. *)
Lemma POWEROF2_spec (x : Z) :
  uint32 x -> POWEROF2 x = true <-> x = 0 \/ is_pow2 x.
Proof.
  intros Hx. unfold POWEROF2. rewrite Z.eqb_eq. split.
  - intros Hland. destruct (Z.eq_dec x 0) as [->|Hnz]; [now left|right].
    assert (Hpos : 0 < x) by (unfold uint32 in Hx; lia).
    rewrite wrap32_small in Hland by (unfold uint32 in *; lia).
    exists (Z.log2 x). split; [apply Z.log2_nonneg|].
    destruct (Z.log2_spec x Hpos) as [Hlo Hhi].
    destruct (Z.eq_dec x (2 ^ Z.log2 x)) as [|Hne]; [assumption|exfalso].
    assert (Hlog : Z.log2 (x - 1) = Z.log2 x).
    { apply Z.log2_unique; [apply Z.log2_nonneg|lia]. }
    assert (Hbit : Z.testbit (Z.land (x - 1) x) (Z.log2 x) = true).
    { rewrite Z.land_spec, Z.bit_log2 by assumption.
      rewrite <- Hlog at 1. rewrite Z.bit_log2; [reflexivity|].
      assert (0 < 2 ^ Z.log2 x) by (apply Z.pow_pos_nonneg; [lia|apply Z.log2_nonneg]).
      lia. }
    rewrite Hland, Z.bits_0 in Hbit. discriminate.
  - intros [->|(k & Hk & ->)]; [reflexivity|].
    assert (0 < 2 ^ k) by (apply Z.pow_pos_nonneg; lia).
    rewrite wrap32_small by (unfold uint32 in *; lia).
    now apply pow2_land_pred.
Qed.

Lemma smeared_start (y : Z) : smeared 1 y y.
Proof.
  intros i Hi. split.
  - intros Hb. exists i. split; [lia|assumption].
  - intros (j & Hj & Hb). assert (j = i) as -> by lia. assumption.
Qed.

Lemma smeared_double (w a y : Z) :
  0 < w -> smeared w a y -> smeared (w + w) (Z.lor a (Z.shiftr a w)) y.
Proof.
  intros Hw Ha i Hi.
  rewrite Z.lor_spec, Z.shiftr_spec, orb_true_iff by assumption.
  rewrite (Ha i Hi), (Ha (i + w)) by lia. split.
  - intros [(j & Hj & Hb)|(j & Hj & Hb)]; exists j; (split; [lia|assumption]).
  - intros (j & Hj & Hb). destruct (Z_lt_le_dec j (i + w)).
    + left. exists j. split; [lia|assumption].
    + right. exists j. split; [lia|assumption].
Qed.

Lemma rte_combine32ms1b_smeared (y : Z) : smeared 32 (rte_combine32ms1b y) y.
Proof.
  unfold rte_combine32ms1b.
  apply (smeared_double 16); [lia|].
  apply (smeared_double 8); [lia|].
  apply (smeared_double 4); [lia|].
  apply (smeared_double 2); [lia|].
  apply (smeared_double 1); [lia|].
  apply smeared_start.
Qed.

Lemma rte_combine32ms1b_zero : rte_combine32ms1b 0 = 0.
Proof. reflexivity. Qed.

(** All bits below the most significant set bit of [y] are filled. *)
Lemma rte_combine32ms1b_ones (y : Z) :
  0 < y < 2 ^ 32 -> rte_combine32ms1b y = 2 ^ (Z.log2 y + 1) - 1.
Proof.
  intros Hy.
  assert (HL : 0 <= Z.log2 y < 32).
  { split; [apply Z.log2_nonneg|]. apply Z.log2_lt_pow2; lia. }
  replace (2 ^ (Z.log2 y + 1) - 1) with (Z.ones (Z.log2 y + 1))
    by (rewrite Z.ones_equiv; lia).
  apply Z.bits_inj'. intros i Hi.
  destruct (Z_lt_le_dec i (Z.log2 y + 1)) as [Hlow|Hhigh].
  - rewrite Z.ones_spec_low by lia.
    apply (rte_combine32ms1b_smeared y i Hi).
    exists (Z.log2 y). split; [lia|]. apply Z.bit_log2. lia.
  - rewrite Z.ones_spec_high by lia.
    apply not_true_is_false. intros Hb.
    apply (rte_combine32ms1b_smeared y i Hi) in Hb.
    destruct Hb as (j & Hj & Hb).
    rewrite Z.bits_above_log2 in Hb by lia. discriminate.
Qed.

Lemma pow2_le_mono (a b : Z) : 0 <= a <= b -> 2 ^ a <= 2 ^ b.
Proof. intros Hab. apply Z.pow_le_mono_r; lia. Qed.

(** Within [1 .. 2^31] the function rounds up to a power of two. *)
Lemma rte_align32pow2_least (x : Z) :
  1 <= x <= 2 ^ 31 -> least_pow2_ge x (rte_align32pow2 x).
Proof.
  intros Hx. unfold rte_align32pow2.
  rewrite (wrap32_small (x - 1)) by (unfold uint32; lia).
  destruct (Z.eq_dec x 1) as [->|Hne].
  - change (least_pow2_ge 1 1). split; [exists 0; split; [lia|reflexivity]|].
    split; [lia|]. intros q Hq _. apply is_pow2_pos in Hq. lia.
  - assert (Hy : 0 < x - 1 < 2 ^ 31) by lia.
    rewrite rte_combine32ms1b_ones by lia.
    destruct (Z.log2_spec (x - 1)) as [Hlo Hhi]; [lia|].
    assert (HL : 0 <= Z.log2 (x - 1) < 31).
    { split; [apply Z.log2_nonneg|]. apply Z.log2_lt_pow2; lia. }
    set (L := Z.log2 (x - 1)) in *.
    assert (Hup : 2 ^ (L + 1) <= 2 ^ 31) by (apply pow2_le_mono; lia).
    replace (2 ^ (L + 1) - 1 + 1) with (2 ^ (L + 1)) by lia.
    rewrite wrap32_small by (unfold uint32; lia).
    replace (Z.succ L) with (L + 1) in Hhi by lia.
    split; [exists (L + 1); split; [lia|reflexivity]|].
    split; [lia|]. intros q (j & Hj & ->) Hq.
    destruct (Z_lt_le_dec L j) as [Hlt|Hge].
    + apply pow2_le_mono; lia.
    + assert (2 ^ j <= 2 ^ L) by (apply pow2_le_mono; lia). lia.
Qed.

(** Outside that range the 32-bit result wraps to 0. *)
Lemma rte_align32pow2_wraps (x : Z) :
  uint32 x -> x = 0 \/ 2 ^ 31 < x -> rte_align32pow2 x = 0.
Proof.
  intros Hx Hout. unfold rte_align32pow2.
  assert (Hy : 2 ^ 31 <= wrap32 (x - 1) < 2 ^ 32).
  { destruct Hout as [->|Hbig]; [vm_compute; split; [discriminate|reflexivity]|].
    rewrite wrap32_small by (unfold uint32 in *; lia). unfold uint32 in Hx. lia. }
  rewrite rte_combine32ms1b_ones by lia.
  assert (Z.log2 (wrap32 (x - 1)) = 31) as ->.
  { apply Z.log2_unique; [lia|]. exact Hy. }
  reflexivity.
Qed.

(** The result is always a 32-bit value, and either 0 or a power of two. *)
Lemma rte_align32pow2_range (x : Z) : uint32 (rte_align32pow2 x).
Proof. unfold rte_align32pow2. apply wrap32_range. Qed.

Lemma rte_align32pow2_cases (x : Z) :
  uint32 x -> rte_align32pow2 x = 0 \/ is_pow2 (rte_align32pow2 x).
Proof.
  intros Hx. destruct (Z.eq_dec x 0) as [->|Hnz]; [now left|].
  destruct (Z_le_gt_dec x (2 ^ 31)) as [Hle|Hgt].
  - right. apply (rte_align32pow2_least x). unfold uint32 in Hx. lia.
  - left. apply rte_align32pow2_wraps; [assumption|right; lia].
Qed.

(** ** Alignment *)

Lemma to_ssize_small (z : Z) : - 2 ^ 63 <= z < 2 ^ 63 -> to_ssize z = z.
Proof. intros Hz. unfold to_ssize. rewrite Z.mod_small; lia. Qed.

Lemma to_size_small (z : Z) : 0 <= z < 2 ^ 64 -> to_size z = z.
Proof. intros Hz. unfold to_size. now apply Z.mod_small. Qed.

Lemma land_lnot_63 (v : Z) : Z.land v (Z.lnot 63) = 64 * (v / 64).
Proof.
  rewrite <- Z.ldiff_land. change 63 with (Z.ones 6).
  rewrite Z.ldiff_ones_r by lia.
  rewrite Z.shiftl_mul_pow2, Z.shiftr_div_pow2 by lia.
  change (2 ^ 6) with 64. lia.
Qed.

(** On values that do not overflow [ssize_t], [RTE_ALIGN] to the cache line
    rounds up to the next multiple of 64. *)
Lemma RTE_ALIGN_cache_line (v : Z) :
  0 <= v < 2 ^ 62 ->
  RTE_ALIGN to_ssize v RTE_CACHE_LINE_SIZE = 64 * ((v + 63) / 64).
Proof.
  intros Hv. unfold RTE_ALIGN, RTE_ALIGN_CEIL, RTE_ALIGN_FLOOR, RTE_CACHE_LINE_SIZE.
  change (to_ssize 64) with 64. change (to_ssize (64 - 1)) with 63.
  replace (v + (64 - 1)) with (v + 63) by lia.
  rewrite land_lnot_63. apply to_ssize_small.
  assert (0 <= (v + 63) / 64) by (apply Z.div_pos; lia).
  assert (64 * ((v + 63) / 64) <= v + 63) by (apply Z.mul_div_le; lia).
  lia.
Qed.

(** ** rte_ring_get_memsize and rte_ring_init, branch by branch *)

Section Setup.
Context `{rte_ring_h} {E : Type} `{my_sys E}.

(** The structure [rte_ring_init] leaves behind once the flags are stored. *)
Lemma rte_ring_init_exact (r count flags : Z) (w : world E) :
  Z.land flags RING_F_EXACT_SZ <> 0 ->
  rte_ring_init r count flags w =
    (0, World (env w)
          (<[r := Rte_ring flags (rte_align32pow2 (wrap32 (count + 1)))
                   (wrap32 (rte_align32pow2 (wrap32 (count + 1)) - 1)) count 0 0
                   (if Z.land flags RING_F_SP_ENQ =? 0 then __IS_MP else __IS_SP)
                   0 0
                   (if Z.land flags RING_F_SC_DEQ =? 0 then __IS_MC else __IS_SC)]>
             (rings w))
          (calls w)).
Proof.
  intros Hflag. apply Z.eqb_neq in Hflag.
  unfold rte_ring_init, bind, assign, memset_ring, ret. cbn.
  rewrite Hflag. cbn. rewrite !alter_insert_eq. reflexivity.
Qed.

Lemma rte_ring_init_invalid (r count flags : Z) (w : world E) :
  Z.land flags RING_F_EXACT_SZ = 0 ->
  negb (POWEROF2 count) || (RTE_RING_SZ_MASK <? count) = true ->
  rte_ring_init r count flags w =
    (- EINVAL,
     World (my_printf_error invalid_size_init [RTE_RING_SZ_MASK] (env w))
       (<[r := Rte_ring flags 0 0 0 0 0
                (if Z.land flags RING_F_SP_ENQ =? 0 then __IS_MP else __IS_SP)
                0 0
                (if Z.land flags RING_F_SC_DEQ =? 0 then __IS_MC else __IS_SC)]>
          (rings w))
       (calls w ++ [Call_my_printf_error invalid_size_init [RTE_RING_SZ_MASK]])).
Proof.
  intros Hflag Hbad. apply Z.eqb_eq in Hflag.
  unfold rte_ring_init, bind, assign, memset_ring, call_my_printf_error, ret. cbn.
  rewrite Hflag, Hbad. cbn. rewrite !alter_insert_eq. reflexivity.
Qed.

Lemma rte_ring_init_valid (r count flags : Z) (w : world E) :
  Z.land flags RING_F_EXACT_SZ = 0 ->
  negb (POWEROF2 count) || (RTE_RING_SZ_MASK <? count) = false ->
  rte_ring_init r count flags w =
    (0, World (env w)
          (<[r := Rte_ring flags count (wrap32 (count - 1)) (wrap32 (count - 1)) 0 0
                   (if Z.land flags RING_F_SP_ENQ =? 0 then __IS_MP else __IS_SP)
                   0 0
                   (if Z.land flags RING_F_SC_DEQ =? 0 then __IS_MC else __IS_SC)]>
             (rings w))
          (calls w)).
Proof.
  intros Hflag Hok. apply Z.eqb_eq in Hflag.
  unfold rte_ring_init, bind, assign, memset_ring, ret. cbn.
  rewrite Hflag, Hok. cbn. rewrite !alter_insert_eq. reflexivity.
Qed.

(** The validity test of both functions, in words. *)
Lemma size_check_passes (count : Z) :
  uint32 count ->
  negb (POWEROF2 count) || (RTE_RING_SZ_MASK <? count) = false
  <-> (count = 0 \/ is_pow2 count) /\ count <= RTE_RING_SZ_MASK.
Proof.
  intros Hc. rewrite orb_false_iff, negb_false_iff, Z.ltb_ge.
  now rewrite (POWEROF2_spec count Hc).
Qed.

Lemma size_check_fails (count : Z) :
  uint32 count -> 0 < count ->
  negb (POWEROF2 count) || (RTE_RING_SZ_MASK <? count) = true
  <-> ~ is_pow2 count \/ RTE_RING_SZ_MASK < count.
Proof.
  intros Hc Hpos. rewrite orb_true_iff, negb_true_iff, Z.ltb_lt.
  rewrite <- not_true_iff_false, (POWEROF2_spec count Hc). split.
  - intros [Hn|Hgt]; [left|now right]. intros Hp. apply Hn. now right.
  - intros [Hn|Hgt]; [left|now right]. intros [Hz|Hp]; [lia|now apply Hn].
Qed.

Lemma rte_ring_get_memsize_invalid (count : Z) (w : world E) :
  negb (POWEROF2 count) || (RTE_RING_SZ_MASK <? count) = true ->
  rte_ring_get_memsize count w =
    (- EINVAL,
     World (my_printf_error invalid_size_memsize [RTE_RING_SZ_MASK] (env w))
       (rings w)
       (calls w ++ [Call_my_printf_error invalid_size_memsize [RTE_RING_SZ_MASK]])).
Proof.
  intros Hbad. unfold rte_ring_get_memsize. rewrite Hbad. reflexivity.
Qed.

Lemma rte_ring_get_memsize_valid (count : Z) (w : world E) :
  uint32 count -> 0 <= sizeof_rte_ring < 2 ^ 61 ->
  negb (POWEROF2 count) || (RTE_RING_SZ_MASK <? count) = false ->
  rte_ring_get_memsize count w =
    (64 * ((sizeof_rte_ring + count * 8 + 63) / 64), w).
Proof.
  intros Hc Hs Hok. unfold rte_ring_get_memsize. rewrite Hok.
  unfold ret, sizeof_voidp, uint32 in *.
  rewrite (to_size_small (count * 8)) by lia.
  rewrite to_size_small by lia.
  rewrite to_ssize_small by lia.
  rewrite RTE_ALIGN_cache_line by lia. reflexivity.
Qed.

Lemma align64_bounds (v : Z) :
  v <= 64 * ((v + 63) / 64) /\ (64 * ((v + 63) / 64)) mod 64 = 0.
Proof.
  split.
  - pose proof (Z.mod_pos_bound (v + 63) 64 ltac:(lia)).
    pose proof (Z.div_mod (v + 63) 64 ltac:(lia)). lia.
  - rewrite Z.mul_comm. apply Z.mod_mul. lia.
Qed.
End Setup.

(** ** The claims about rte_ring_init *)

Section InitClaims.
Context `{rte_ring_h} {E : Type} `{my_sys E}.

(** C1 (amended): in exact-size mode [rte_ring_init] always stores
    [capacity = requestedCount] and [mask = size - 1] in 32-bit arithmetic;
    for every [requestedCount] below 2^31 the [size] it stores is the least
    power of two that is at least [requestedCount + 1], hence strictly
    greater than [requestedCount], and [mask] is exactly [size - 1]; a count
    of 100 gives capacity 100 and size 128. *)
Theorem rte_ring_init_exact_size_layout (r count flags : Z) (w : world E) :
  uint32 count ->
  Z.land flags RING_F_EXACT_SZ <> 0 ->
  exists s : rte_ring,
    rings (rte_ring_init r count flags w).2 !! r = Some s
    /\ r_capacity s = count
    /\ r_mask s = wrap32 (r_size s - 1)
    /\ (count < 2 ^ 31 ->
        least_pow2_ge (count + 1) (r_size s)
        /\ count < r_size s
        /\ r_mask s = r_size s - 1)
    /\ (count = 100 -> r_capacity s = 100 /\ r_size s = 128).
Proof.
  intros Hc Hflag. rewrite (rte_ring_init_exact r count flags w Hflag). cbn.
  eexists. split; [apply lookup_insert_eq|]. cbn.
  split; [reflexivity|]. split; [reflexivity|]. split.
  - intros Hsmall. unfold uint32 in Hc.
    rewrite (wrap32_small (count + 1)) by (unfold uint32; lia).
    pose proof (rte_align32pow2_least (count + 1) ltac:(lia)) as Hleast.
    pose proof (rte_align32pow2_range (count + 1)) as Hrange.
    split; [assumption|].
    destruct Hleast as (Hp & Hge & _). apply is_pow2_pos in Hp.
    split; [lia|]. apply wrap32_small. unfold uint32 in *. lia.
  - intros ->. split; reflexivity.
Qed.

(** C3 (amended): in exact-size mode [rte_ring_init] returns 0 for every
    count; with exact-size mode unset and a non-zero count it returns
    [-EINVAL] when the count is not a power of two or exceeds
    [RTE_RING_SZ_MASK], and 0 when the count is a power of two within the
    limit. *)
Theorem rte_ring_init_result (r count flags : Z) (w : world E) :
  uint32 count ->
  (Z.land flags RING_F_EXACT_SZ <> 0 ->
     (rte_ring_init r count flags w).1 = 0)
  /\ (Z.land flags RING_F_EXACT_SZ = 0 -> 0 < count ->
      ~ is_pow2 count \/ RTE_RING_SZ_MASK < count ->
      (rte_ring_init r count flags w).1 = - EINVAL)
  /\ (Z.land flags RING_F_EXACT_SZ = 0 ->
      is_pow2 count -> count <= RTE_RING_SZ_MASK ->
      (rte_ring_init r count flags w).1 = 0).
Proof.
  intros Hc. split; [|split].
  - intros Hflag. now rewrite (rte_ring_init_exact r count flags w Hflag).
  - intros Hflag Hpos Hbad. apply (size_check_fails count Hc Hpos) in Hbad.
    now rewrite (rte_ring_init_invalid r count flags w Hflag Hbad).
  - intros Hflag Hp Hle.
    assert (Hok : negb (POWEROF2 count) || (RTE_RING_SZ_MASK <? count) = false).
    { apply (size_check_passes count Hc). split; [now right|assumption]. }
    now rewrite (rte_ring_init_valid r count flags w Hflag Hok).
Qed.

(** C5: for a power-of-two count within the limit and exact-size mode unset,
    [rte_ring_init] returns 0 and leaves [size = count], [mask = count - 1],
    [capacity = size - 1] and the four cursors at 0. *)
Theorem rte_ring_init_default_layout (r count flags : Z) (w : world E) :
  uint32 count ->
  is_pow2 count ->
  count <= RTE_RING_SZ_MASK ->
  Z.land flags RING_F_EXACT_SZ = 0 ->
  (rte_ring_init r count flags w).1 = 0
  /\ exists s : rte_ring,
       rings (rte_ring_init r count flags w).2 !! r = Some s
       /\ r_size s = count
       /\ r_mask s = count - 1
       /\ r_capacity s = r_size s - 1
       /\ prod_head s = 0 /\ prod_tail s = 0
       /\ cons_head s = 0 /\ cons_tail s = 0.
Proof.
  intros Hc Hp Hle Hflag.
  assert (Hok : negb (POWEROF2 count) || (RTE_RING_SZ_MASK <? count) = false).
  { apply (size_check_passes count Hc). split; [now right|assumption]. }
  rewrite (rte_ring_init_valid r count flags w Hflag Hok). cbn.
  split; [reflexivity|]. eexists. split; [apply lookup_insert_eq|]. cbn.
  apply is_pow2_pos in Hp.
  rewrite wrap32_small by (unfold uint32 in *; lia). repeat split; reflexivity.
Qed.

(** What every call leaves at [r]: the zeroed structure with [flags] and the
    two [single] fields stored, and on success the sizes. *)
Lemma rte_ring_init_modes (r count flags : Z) (w : world E) :
  exists s : rte_ring,
    rings (rte_ring_init r count flags w).2 !! r = Some s
    /\ r_flags s = flags
    /\ prod_single s = (if Z.land flags RING_F_SP_ENQ =? 0 then __IS_MP else __IS_SP)
    /\ cons_single s = (if Z.land flags RING_F_SC_DEQ =? 0 then __IS_MC else __IS_SC).
Proof.
  destruct (Z.eq_dec (Z.land flags RING_F_EXACT_SZ) 0) as [Hflag|Hflag].
  - destruct (negb (POWEROF2 count) || (RTE_RING_SZ_MASK <? count)) eqn:Hchk.
    + rewrite (rte_ring_init_invalid r count flags w Hflag Hchk). cbn.
      eexists. split; [apply lookup_insert_eq|]. repeat split; reflexivity.
    + rewrite (rte_ring_init_valid r count flags w Hflag Hchk). cbn.
      eexists. split; [apply lookup_insert_eq|]. repeat split; reflexivity.
  - rewrite (rte_ring_init_exact r count flags w Hflag). cbn.
    eexists. split; [apply lookup_insert_eq|]. repeat split; reflexivity.
Qed.

(** C6: whatever the count and the outcome, [rte_ring_init] puts the producer
    side in Single mode ([prod.single = __IS_SP]) exactly when
    [RING_F_SP_ENQ] is set in [flags] and in Multi mode ([__IS_MP])
    otherwise, and the consumer side in Single mode ([cons.single = __IS_SC])
    exactly when [RING_F_SC_DEQ] is set and in Multi mode ([__IS_MC])
    otherwise. *)
Theorem rte_ring_init_sync_modes (r count flags : Z) (w : world E) :
  __IS_SP <> __IS_MP ->
  __IS_SC <> __IS_MC ->
  exists s : rte_ring,
    rings (rte_ring_init r count flags w).2 !! r = Some s
    /\ (prod_single s = __IS_SP <-> Z.land flags RING_F_SP_ENQ <> 0)
    /\ (prod_single s = __IS_MP <-> Z.land flags RING_F_SP_ENQ = 0)
    /\ (cons_single s = __IS_SC <-> Z.land flags RING_F_SC_DEQ <> 0)
    /\ (cons_single s = __IS_MC <-> Z.land flags RING_F_SC_DEQ = 0).
Proof.
  intros Hp Hc.
  destruct (rte_ring_init_modes r count flags w) as (s & Hs & _ & Hps & Hcs).
  exists s. split; [assumption|]. rewrite Hps, Hcs.
  destruct (Z.eqb_spec (Z.land flags RING_F_SP_ENQ) 0) as [Hsp|Hsp];
    destruct (Z.eqb_spec (Z.land flags RING_F_SC_DEQ) 0) as [Hsc|Hsc];
    repeat split; intros; congruence.
Qed.

(** C8: on every call the block at [r] is overwritten before the count is
    looked at: what it held before never shows in what it holds afterwards.
    A call that returns [-EINVAL] has therefore changed the block: it now
    holds the zeroed structure with [flags] and the two [single] fields
    stored, and nothing else. *)
Theorem rte_ring_init_failure_overwrites (r count flags : Z) (w : world E) :
  (forall prior : rte_ring,
     rings (rte_ring_init r count flags
              (World (env w) (<[r := prior]> (rings w)) (calls w))).2 !! r
     = rings (rte_ring_init r count flags w).2 !! r)
  /\ ((rte_ring_init r count flags w).1 = - EINVAL ->
      rings (rte_ring_init r count flags w).2 !! r =
        Some (set_cons_single
                (if Z.land flags RING_F_SC_DEQ =? 0 then __IS_MC else __IS_SC)
                (set_prod_single
                   (if Z.land flags RING_F_SP_ENQ =? 0 then __IS_MP else __IS_SP)
                   (set_flags flags zeroed)))).
Proof.
  destruct (Z.eq_dec (Z.land flags RING_F_EXACT_SZ) 0) as [Hflag|Hflag].
  - destruct (negb (POWEROF2 count) || (RTE_RING_SZ_MASK <? count)) eqn:Hchk.
    + split.
      * intros prior. rewrite !(rte_ring_init_invalid r count flags _ Hflag Hchk).
        cbn [snd rings]. now rewrite !lookup_insert_eq.
      * rewrite (rte_ring_init_invalid r count flags w Hflag Hchk). cbn [fst snd rings].
        intros _. apply lookup_insert_eq.
    + split.
      * intros prior. rewrite !(rte_ring_init_valid r count flags _ Hflag Hchk).
        cbn [snd rings]. now rewrite !lookup_insert_eq.
      * rewrite (rte_ring_init_valid r count flags w Hflag Hchk). cbn [fst].
        discriminate.
  - split.
    + intros prior. rewrite !(rte_ring_init_exact r count flags _ Hflag).
      cbn [snd rings]. now rewrite !lookup_insert_eq.
    + rewrite (rte_ring_init_exact r count flags w Hflag). cbn [fst]. discriminate.
Qed.
End InitClaims.

(** ** The claims about rte_ring_get_memsize, rte_ring_create and
       rte_ring_free *)

Section MemoryClaims.
Context `{rte_ring_h} {E : Type} `{my_sys E}.

(** For a non-zero count the test of [rte_ring_get_memsize] is the one its
    comment announces. *)
Lemma rte_ring_get_memsize_positive (count : Z) (w : world E) :
  uint32 count -> 0 < count -> 0 <= sizeof_rte_ring < 2 ^ 61 ->
  ((rte_ring_get_memsize count w).1 = - EINVAL
   <-> ~ is_pow2 count \/ RTE_RING_SZ_MASK < count)
  /\ ((rte_ring_get_memsize count w).1 <> - EINVAL ->
      0 <= (rte_ring_get_memsize count w).1).
Proof.
  intros Hc Hpos Hs.
  destruct (negb (POWEROF2 count) || (RTE_RING_SZ_MASK <? count)) eqn:Hchk.
  - rewrite (rte_ring_get_memsize_invalid count w Hchk). cbn.
    apply (size_check_fails count Hc Hpos) in Hchk. split; [tauto|congruence].
  - rewrite (rte_ring_get_memsize_valid count w Hc Hs Hchk). cbn.
    pose proof (align64_bounds (sizeof_rte_ring + count * 8)) as [Hge _].
    unfold uint32 in Hc. split; [|lia]. split.
    + unfold EINVAL. lia.
    + intros Hbad. apply (size_check_fails count Hc Hpos) in Hbad. congruence.
Qed.

(** C2 (at the failing input): 0 is not a power of two, yet
    [rte_ring_get_memsize(0)] does not return [-EINVAL]: it returns the size
    of the bare structure, rounded up to the cache line. *)
Theorem rte_ring_get_memsize_accepts_zero (w : world E) :
  0 <= sizeof_rte_ring < 2 ^ 61 ->
  0 <= RTE_RING_SZ_MASK ->
  ~ is_pow2 0
  /\ (rte_ring_get_memsize 0 w).1 = 64 * ((sizeof_rte_ring + 63) / 64)
  /\ (rte_ring_get_memsize 0 w).1 <> - EINVAL.
Proof.
  intros Hs Hm.
  assert (Hok : negb (POWEROF2 0) || (RTE_RING_SZ_MASK <? 0) = false).
  { apply size_check_passes; [unfold uint32; lia|]. split; [now left|assumption]. }
  rewrite (rte_ring_get_memsize_valid 0 w ltac:(unfold uint32; lia) Hs Hok). cbn.
  rewrite Z.add_0_r. split; [|split; [reflexivity|]].
  - intros Hp. apply is_pow2_pos in Hp. lia.
  - pose proof (align64_bounds sizeof_rte_ring) as [Hge _]. unfold EINVAL. lia.
Qed.

(** C4: for a power-of-two count within the limit, [rte_ring_get_memsize]
    returns the same value whatever the state it is called in and leaves that
    state alone; the value is a multiple of the cache-line size and at least
    [c * sizeof(void * )]. *)
Theorem rte_ring_get_memsize_aligned (c : Z) (w1 w2 : world E) :
  uint32 c ->
  is_pow2 c ->
  c <= RTE_RING_SZ_MASK ->
  0 <= sizeof_rte_ring < 2 ^ 61 ->
  (rte_ring_get_memsize c w1).1 = (rte_ring_get_memsize c w2).1
  /\ (rte_ring_get_memsize c w1).2 = w1
  /\ (rte_ring_get_memsize c w1).1 mod RTE_CACHE_LINE_SIZE = 0
  /\ c * sizeof_voidp <= (rte_ring_get_memsize c w1).1.
Proof.
  intros Hc Hp Hle Hs.
  assert (Hok : negb (POWEROF2 c) || (RTE_RING_SZ_MASK <? c) = false).
  { apply (size_check_passes c Hc). split; [now right|assumption]. }
  rewrite !(rte_ring_get_memsize_valid c _ Hc Hs Hok). cbn.
  pose proof (align64_bounds (sizeof_rte_ring + c * 8)) as [Hge Hmod].
  unfold RTE_CACHE_LINE_SIZE, sizeof_voidp.
  repeat split; [assumption|lia].
Qed.

(** The index of a slot never reaches [size] when [mask = size - 1] and
    [size] is a power of two. *)
Lemma land_mask_lt (c size : Z) :
  is_pow2 size -> Z.land c (size - 1) < size.
Proof.
  intros (m & Hm & ->).
  replace (2 ^ m - 1) with (Z.ones m) by (rewrite Z.ones_equiv; lia).
  rewrite Z.land_ones by assumption.
  apply Z.mod_pos_bound. apply Z.pow_pos_nonneg; lia.
Qed.

(** What holds of every ring [rte_ring_create] returns: it made one
    allocation, of [rte_ring_get_memsize] bytes for the count it rounded, and
    that many bytes hold the structure followed by [r->size] pointers; when
    [size] is not 0, every slot [c & mask] lies inside the block.  The rings
    of size 0 are treated further down. *)
Lemma rte_ring_create_block_covers (count flags : Z) (w : world E) :
  uint32 count ->
  0 <= sizeof_rte_ring < 2 ^ 61 ->
  (rte_ring_create count flags w).1 <> NULL ->
  exists (bytes : Z) (s : rte_ring),
    calls (rte_ring_create count flags w).2 =
      calls w ++ [Call_my_malloc bytes (rte_ring_create count flags w).1]
    /\ bytes =
         (rte_ring_get_memsize
            (if negb (Z.land flags RING_F_EXACT_SZ =? 0)
             then rte_align32pow2 (wrap32 (count + 1)) else count) w).1
    /\ rings (rte_ring_create count flags w).2
         !! (rte_ring_create count flags w).1 = Some s
    /\ sizeof_rte_ring + r_size s * sizeof_voidp <= bytes
    /\ (0 < r_size s -> forall c : Z,
          sizeof_rte_ring + (Z.land c (r_mask s) + 1) * sizeof_voidp <= bytes).
Proof.
  intros Hc Hs. unfold rte_ring_create, bind.
  set (rounded := if negb (Z.land flags RING_F_EXACT_SZ =? 0)
                  then rte_align32pow2 (wrap32 (count + 1)) else count).
  assert (Hr : uint32 rounded).
  { unfold rounded. destruct (negb _); [apply rte_align32pow2_range|assumption]. }
  destruct (negb (POWEROF2 rounded) || (RTE_RING_SZ_MASK <? rounded)) eqn:Hchk.
  { rewrite (rte_ring_get_memsize_invalid rounded w Hchk). cbv beta iota.
    change (- EINVAL <? 0) with true. cbv beta iota. unfold ret. cbn [fst].
    congruence. }
  rewrite (rte_ring_get_memsize_valid rounded w Hr Hs Hchk). cbv beta iota.
  pose proof (align64_bounds (sizeof_rte_ring + rounded * 8)) as [Hge _].
  set (bytes := 64 * ((sizeof_rte_ring + rounded * 8 + 63) / 64)) in *.
  assert (Hnonneg : (bytes <? 0) = false) by (apply Z.ltb_ge; unfold uint32 in Hr; lia).
  rewrite Hnonneg. unfold call_my_malloc.
  destruct (my_malloc bytes (env w)) as [p e]. cbv beta iota.
  destruct (Z.eqb_spec p NULL) as [Hnull|Hlive].
  { unfold call_my_printf_error, ret. cbn [fst]. congruence. }
  intros _.
  assert (Hinit : rte_ring_init p count flags
                    (World e (rings w) (calls w ++ [Call_my_malloc bytes p]))
                  = (0, World e
                          (<[p := Rte_ring flags rounded (wrap32 (rounded - 1))
                                    (if negb (Z.land flags RING_F_EXACT_SZ =? 0)
                                     then count else wrap32 (rounded - 1)) 0 0
                                    (if Z.land flags RING_F_SP_ENQ =? 0
                                     then __IS_MP else __IS_SP) 0 0
                                    (if Z.land flags RING_F_SC_DEQ =? 0
                                     then __IS_MC else __IS_SC)]> (rings w))
                          (calls w ++ [Call_my_malloc bytes p]))).
  { unfold rounded in *.
    destruct (Z.eqb_spec (Z.land flags RING_F_EXACT_SZ) 0) as [Hflag|Hflag];
      cbn [negb] in *.
    - now rewrite (rte_ring_init_valid p count flags _ Hflag Hchk).
    - now rewrite (rte_ring_init_exact p count flags _ Hflag). }
  rewrite Hinit. cbv beta iota. change (negb (0 =? 0)) with false.
  cbv beta iota. unfold ret. cbn [fst snd calls rings].
  exists bytes. eexists. split; [reflexivity|]. split; [reflexivity|].
  split; [apply lookup_insert_eq|]. cbn [r_size r_mask]. unfold sizeof_voidp.
  split; [lia|]. intros Hpos c.
  apply (size_check_passes rounded Hr) in Hchk.
  destruct Hchk as [[Hzero|Hpow] _]; [lia|].
  rewrite wrap32_small by (unfold uint32 in *; lia).
  pose proof (land_mask_lt c rounded Hpow). lia.
Qed.

(** C10: [rte_ring_free(NULL)] returns with the state as it found it: no call
    to the host, no change to memory. *)
Theorem rte_ring_free_null (w : world E) :
  rte_ring_free NULL w = (tt, w).
Proof. reflexivity. Qed.

(** On any other pointer the block is handed to [my_free]. *)
Lemma rte_ring_free_live (r : Z) (w : world E) :
  r <> NULL ->
  calls (rte_ring_free r w).2 = calls w ++ [Call_my_free r].
Proof.
  intros Hr. unfold rte_ring_free.
  destruct (Z.eqb_spec r NULL) as [|_]; [contradiction|reflexivity].
Qed.
End MemoryClaims.

(** ** Enqueue then dequeue *)

Section Slots.
Variables (m h : Z).
Hypothesis m_range : 0 <= m <= 32.

Lemma slot_of_mod (k : Z) :
  slot_of (2 ^ m - 1) h k = Z.to_nat ((h + k) mod 2 ^ m).
Proof.
  unfold slot_of, wrap32.
  replace (2 ^ m - 1) with (Z.ones m) by (rewrite Z.ones_equiv; lia).
  rewrite Z.land_ones by lia. f_equal.
  assert (0 < 2 ^ m) by (apply Z.pow_pos_nonneg; lia).
  apply Z.mod_mod_divide.
  exists (2 ^ (32 - m)). rewrite <- Z.pow_add_r by lia. f_equal. lia.
Qed.

Lemma slot_of_lt (k : Z) : (slot_of (2 ^ m - 1) h k < Z.to_nat (2 ^ m))%nat.
Proof.
  rewrite slot_of_mod.
  assert (0 < 2 ^ m) by (apply Z.pow_pos_nonneg; lia).
  pose proof (Z.mod_pos_bound (h + k) (2 ^ m) ltac:(lia)). lia.
Qed.

(** Fewer than [size] consecutive counter values hit distinct slots. *)
Lemma slot_of_apart (j1 j2 : Z) :
  j1 < j2 < j1 + 2 ^ m ->
  slot_of (2 ^ m - 1) h j1 <> slot_of (2 ^ m - 1) h j2.
Proof.
  intros Hj. rewrite !slot_of_mod. intros Heq.
  assert (Hn : 0 < 2 ^ m) by (apply Z.pow_pos_nonneg; lia).
  pose proof (Z.mod_pos_bound (h + j1) (2 ^ m) Hn).
  pose proof (Z.mod_pos_bound (h + j2) (2 ^ m) Hn).
  apply Z2Nat.inj in Heq; [|lia|lia].
  pose proof (Z.div_mod (h + j1) (2 ^ m) ltac:(lia)) as H1.
  pose proof (Z.div_mod (h + j2) (2 ^ m) ltac:(lia)) as H2.
  rewrite Heq in H1.
  set (d := (h + j2) / 2 ^ m - (h + j1) / 2 ^ m).
  assert (Hd : j2 - j1 = 2 ^ m * d) by (unfold d; lia).
  destruct (Z_lt_le_dec d 1); nia.
Qed.

Lemma write_slots_length (k : Z) (items cells : list Z) :
  length (write_slots (2 ^ m - 1) h k items cells) = length cells.
Proof.
  revert k cells. induction items as [|x rest IH]; intros k cells; [reflexivity|].
  cbn. rewrite IH. apply length_insert.
Qed.

(** Writing leaves alone every cell that is not a slot of the range. *)
Lemma write_slots_frame (k : Z) (items cells : list Z) (i : nat) :
  (forall j : Z, k <= j < k + Z.of_nat (length items) ->
     slot_of (2 ^ m - 1) h j <> i) ->
  write_slots (2 ^ m - 1) h k items cells !! i = cells !! i.
Proof.
  revert k cells. induction items as [|x rest IH]; intros k cells Hout;
    [reflexivity|].
  cbn [write_slots]. cbn [length] in Hout. rewrite IH.
  - apply list_lookup_insert_ne. apply Hout. lia.
  - intros j Hj. apply Hout. lia.
Qed.

(** After the write, slot [k + j] holds the [j]-th item. *)
Lemma write_slots_lookup (k : Z) (items cells : list Z) (j : nat) :
  Z.of_nat (length items) <= 2 ^ m ->
  Z.of_nat (length cells) = 2 ^ m ->
  (j < length items)%nat ->
  write_slots (2 ^ m - 1) h k items cells !! slot_of (2 ^ m - 1) h (k + Z.of_nat j)
  = items !! j.
Proof.
  revert k cells j. induction items as [|x rest IH]; intros k cells j Hlen Hcells Hj;
    [cbn in Hj; lia|].
  cbn [write_slots]. cbn [length] in Hlen, Hj. destruct j as [|j].
  - rewrite Z.add_0_r. rewrite write_slots_frame.
    + cbn. apply list_lookup_insert_eq. pose proof (slot_of_lt k). lia.
    + intros i Hi. apply not_eq_sym. apply slot_of_apart. lia.
  - replace (k + Z.of_nat (S j)) with (k + 1 + Z.of_nat j) by lia.
    cbn [lookup list_lookup]. apply IH; [lia| |lia].
    rewrite length_insert. assumption.
Qed.

Lemma read_slots_exact (k : Z) (items cells : list Z) :
  (forall j : nat, (j < length items)%nat ->
     cells !! slot_of (2 ^ m - 1) h (k + Z.of_nat j) = items !! j) ->
  read_slots (2 ^ m - 1) h k (length items) cells = items.
Proof.
  revert k. induction items as [|x rest IH]; intros k Hcells; [reflexivity|].
  cbn [length read_slots]. f_equal.
  - specialize (Hcells O ltac:(cbn; lia)). rewrite Z.add_0_r in Hcells.
    rewrite Hcells. reflexivity.
  - apply IH. intros j Hj. specialize (Hcells (S j) ltac:(cbn; lia)).
    replace (k + 1 + Z.of_nat j) with (k + Z.of_nat (S j)) by lia.
    exact Hcells.
Qed.

(** What was written to a range of at most [size] slots is read back in the
    same order. *)
Lemma read_write_slots (items cells : list Z) :
  Z.of_nat (length items) <= 2 ^ m ->
  Z.of_nat (length cells) = 2 ^ m ->
  read_slots (2 ^ m - 1) h 0 (length items)
    (write_slots (2 ^ m - 1) h 0 items cells) = items.
Proof.
  intros Hlen Hcells. apply read_slots_exact. intros j Hj.
  apply write_slots_lookup; assumption.
Qed.
End Slots.

Section Fifo.
Context `{rte_ring_h}.

(** On an idle ring with room for them, all the items are enqueued: head and
    tail of the producer advance by their number and the items sit in the
    slots of the claimed range. *)
Lemma enqueue_idle (beh : behavior) (items : list Z) (q : Ring) :
  ring_wf q -> ring_idle q ->
  Z.of_nat (length items) <= r_capacity (hdr q) ->
  enqueue beh items q =
    Done (Z.of_nat (length items),
          MkRing
            (set_prod_tail (wrap32 (prod_head (hdr q) + Z.of_nat (length items)))
               (set_prod_head (wrap32 (prod_head (hdr q) + Z.of_nat (length items)))
                  (hdr q)))
            (write_slots (r_mask (hdr q)) (prod_head (hdr q)) 0 items (slots q))).
Proof.
  intros [(m & Hm & Hsize) Hmask Hcap Hslots Hhead] (Htail & Hch & Hct) Hlen.
  assert (Hpow : 2 ^ m <= 2 ^ 31) by (apply pow2_le_mono; lia).
  unfold enqueue, claim_producer. rewrite Hct, Z.sub_diag.
  change (wrap32 0) with 0. rewrite Z.sub_0_r.
  rewrite (wrap32_small (r_capacity (hdr q))) by (unfold uint32; lia).
  unfold granted. destruct (Z.ltb_spec (r_capacity (hdr q)) (Z.of_nat (length items)));
    [lia|].
  unfold compareAndSwap. rewrite Z.eqb_refl.
  assert (Hcommit : forall v, commit_producer (prod_head (hdr q)) (Z.of_nat (length items))
                      (set_prod_head v (hdr q))
            = Done (set_prod_tail (wrap32 (prod_head (hdr q) + Z.of_nat (length items)))
                      (set_prod_head v (hdr q)))).
  { intros v. unfold commit_producer, producerMode. cbn [prod_single prod_tail set_prod_head].
    rewrite Htail, Z.eqb_refl. now destruct (prod_single (hdr q) =? __IS_SP). }
  destruct (producerMode (hdr q)); rewrite Hcommit; cbn [r_mask set_prod_head];
    rewrite Nat2Z.id, firstn_all; reflexivity.
Qed.

(** On a ring whose consumer cursors sit [n] below the published tail, [n]
    items are dequeued: they are read from the slots of the range. *)
Lemma dequeue_published (beh : behavior) (n : nat) (q : Ring) :
  uint32 (cons_head (hdr q)) ->
  cons_tail (hdr q) = cons_head (hdr q) ->
  prod_tail (hdr q) = wrap32 (cons_head (hdr q) + Z.of_nat n) ->
  Z.of_nat n < 2 ^ 32 ->
  dequeue beh (Z.of_nat n) q =
    Done (read_slots (r_mask (hdr q)) (cons_head (hdr q)) 0 n (slots q),
          MkRing
            (set_cons_tail (wrap32 (cons_head (hdr q) + Z.of_nat n))
               (set_cons_head (wrap32 (cons_head (hdr q) + Z.of_nat n)) (hdr q)))
            (slots q)).
Proof.
  intros Hhead Htail Hpub Hn.
  unfold dequeue, claim_consumer. rewrite Hpub.
  assert (Hentries : wrap32 (wrap32 (cons_head (hdr q) + Z.of_nat n) - cons_head (hdr q))
                     = Z.of_nat n).
  { unfold wrap32, uint32 in *. rewrite Zminus_mod_idemp_l.
    replace (cons_head (hdr q) + Z.of_nat n - cons_head (hdr q)) with (Z.of_nat n) by lia.
    apply Z.mod_small. lia. }
  rewrite Hentries. unfold granted. rewrite Z.ltb_irrefl.
  unfold compareAndSwap. rewrite Z.eqb_refl.
  assert (Hcommit : forall v, commit_consumer (cons_head (hdr q)) (Z.of_nat n)
                      (set_cons_head v (hdr q))
            = Done (set_cons_tail (wrap32 (cons_head (hdr q) + Z.of_nat n))
                      (set_cons_head v (hdr q)))).
  { intros v. unfold commit_consumer, consumerMode. cbn [cons_single cons_tail set_cons_head].
    rewrite Htail, Z.eqb_refl. now destruct (cons_single (hdr q) =? __IS_SC). }
  destruct (consumerMode (hdr q)); rewrite Hcommit; cbn [r_mask set_cons_head];
    rewrite Nat2Z.id; reflexivity.
Qed.

(** First in, first out, for any batch that fits: on an idle ring whose
    capacity is at least the number of items, enqueueing them and dequeueing
    as many returns them in the order given. *)
Lemma enqueue_dequeue_batch (beh1 beh2 : behavior) (items : list Z) (q : Ring) :
  ring_wf q -> ring_idle q ->
  Z.of_nat (length items) <= r_capacity (hdr q) ->
  exists q1 q2 : Ring,
    enqueue beh1 items q = Done (Z.of_nat (length items), q1)
    /\ dequeue beh2 (Z.of_nat (length items)) q1 = Done (items, q2)
    /\ ring_wf q2 /\ ring_idle q2.
Proof.
  intros Hwf Hidle Hlen.
  rewrite (enqueue_idle beh1 items q Hwf Hidle Hlen).
  destruct Hwf as [(m & Hm & Hsize) Hmask Hcap Hslots Hhead].
  destruct Hidle as (Htail & Hch & Hct).
  assert (Hpow : 2 ^ m <= 2 ^ 31) by (apply pow2_le_mono; lia).
  eexists. eexists. split; [reflexivity|].
  rewrite dequeue_published; cbn [hdr slots cons_head cons_tail prod_tail r_mask
    set_prod_head set_prod_tail]; try (rewrite ?Hch, ?Hct; reflexivity || assumption);
    [|lia].
  split; [|split].
  - f_equal. f_equal. rewrite Hmask, Hsize, Hch.
    apply read_write_slots; [lia|lia|lia].
  - constructor; cbn [hdr slots r_size r_mask r_capacity prod_head set_cons_tail
      set_cons_head set_prod_tail set_prod_head]; try assumption.
    + exists m. split; assumption.
    + rewrite Hmask, Hsize, write_slots_length. lia.
    + apply wrap32_range.
  - unfold ring_idle. cbn [hdr prod_head prod_tail cons_head cons_tail set_cons_tail
      set_cons_head set_prod_tail set_prod_head]. rewrite Hch. repeat split.
Qed.

(** C7 (amended): on every well-formed ring that is idle (nothing stored,
    nothing in flight) and has a capacity of at least 4, whatever its modes,
    enqueueing [1,2,3,4] succeeds with 4 items and a following dequeue of 4
    items returns [1,2,3,4] in that order, in the fixed and in the burst
    variants. *)
Theorem enqueue_dequeue_1234 (q : Ring) :
  ring_wf q ->
  ring_idle q ->
  4 <= r_capacity (hdr q) ->
  enqueue_then_dequeue [1; 2; 3; 4] 4 q = Done [1; 2; 3; 4]
  /\ (exists q1 q2 : Ring,
        enqueueFixed [1; 2; 3; 4] q = Done (4, q1)
        /\ dequeueFixed 4 q1 = Done ([1; 2; 3; 4], q2))
  /\ (exists q1 q2 : Ring,
        enqueueBurst [1; 2; 3; 4] q = Done (4, q1)
        /\ dequeueBurst 4 q1 = Done ([1; 2; 3; 4], q2)).
Proof.
  intros Hwf Hidle Hcap.
  assert (Hlen : Z.of_nat (length [1; 2; 3; 4]) <= r_capacity (hdr q))
    by (cbn [length]; lia).
  destruct (enqueue_dequeue_batch Fixed Fixed [1; 2; 3; 4] q Hwf Hidle Hlen)
    as (f1 & f2 & Hf1 & Hf2 & _).
  destruct (enqueue_dequeue_batch Burst Burst [1; 2; 3; 4] q Hwf Hidle Hlen)
    as (b1 & b2 & Hb1 & Hb2 & _).
  change (Z.of_nat (length [1; 2; 3; 4])) with 4 in *.
  split; [|split].
  - unfold enqueue_then_dequeue, enqueueFixed, dequeueFixed, ring_after.
    rewrite Hf1, Hf2. reflexivity.
  - exists f1, f2. split; assumption.
  - exists b1, b2. split; assumption.
Qed.
End Fifo.

(** ** Further properties of rte_common.h *)

(** X1: at type [unsigned], [POWEROF2] accepts exactly 0 and the powers of
    two. *)
Theorem POWEROF2_zero_or_power (x : Z) :
  uint32 x -> (POWEROF2 x = true <-> x = 0 \/ is_pow2 x).
Proof. intros Hx. exact (POWEROF2_spec x Hx). Qed.

Lemma pow2_pos (k : Z) : 0 <= k -> 0 < 2 ^ k.
Proof. intros Hk. apply Z.pow_pos_nonneg; lia. Qed.

Lemma land_lnot_pow2 (v k : Z) :
  0 <= k -> Z.land v (Z.lnot (2 ^ k - 1)) = 2 ^ k * (v / 2 ^ k).
Proof.
  intros Hk. rewrite <- Z.ldiff_land.
  replace (2 ^ k - 1) with (Z.ones k) by (rewrite Z.ones_equiv; lia).
  rewrite Z.ldiff_ones_r by assumption.
  rewrite Z.shiftl_mul_pow2, Z.shiftr_div_pow2 by assumption. lia.
Qed.

Lemma floor_multiple_bounds (v a : Z) :
  0 < a -> a * (v / a) <= v < a * (v / a) + a /\ (a * (v / a)) mod a = 0.
Proof.
  intros Ha. pose proof (Z.mod_pos_bound v a Ha). pose proof (Z.div_mod v a ltac:(lia)).
  split; [lia|]. rewrite Z.mul_comm. apply Z.mod_mul. lia.
Qed.

Lemma RTE_ALIGN_FLOOR_to_ssize (val k : Z) :
  0 <= k <= 62 ->
  - 2 ^ 63 <= val < 2 ^ 63 ->
  RTE_ALIGN_FLOOR to_ssize val (2 ^ k) = 2 ^ k * (val / 2 ^ k).
Proof.
  intros Hk Hval. pose proof (pow2_pos k ltac:(lia)) as Ha.
  assert (Hle : 2 ^ k <= 2 ^ 62) by (apply pow2_le_mono; lia).
  unfold RTE_ALIGN_FLOOR. rewrite (to_ssize_small (2 ^ k - 1)) by lia.
  rewrite land_lnot_pow2 by lia. apply to_ssize_small.
  pose proof (floor_multiple_bounds val (2 ^ k) Ha) as [Hb _].
  split; [|lia].
  assert (Hq : - 2 ^ (63 - k) <= val / 2 ^ k).
  { apply Z.div_le_lower_bound; [assumption|].
    replace (2 ^ k * - 2 ^ (63 - k)) with (- (2 ^ k * 2 ^ (63 - k))) by lia.
    rewrite <- Z.pow_add_r by lia. replace (k + (63 - k)) with 63 by lia. lia. }
  assert (Hsplit : 2 ^ 63 = 2 ^ k * 2 ^ (63 - k)).
  { rewrite <- Z.pow_add_r by lia. f_equal. lia. }
  nia.
Qed.

(** X2: on [ssize_t] and a power-of-two alignment, [RTE_ALIGN_FLOOR] yields
    the largest multiple of the alignment that is no bigger than the value,
    for negative values too. *)
Theorem RTE_ALIGN_FLOOR_ssize (val k : Z) :
  0 <= k <= 62 ->
  - 2 ^ 63 <= val < 2 ^ 63 ->
  RTE_ALIGN_FLOOR to_ssize val (2 ^ k) = 2 ^ k * (val / 2 ^ k)
  /\ RTE_ALIGN_FLOOR to_ssize val (2 ^ k) <= val
       < RTE_ALIGN_FLOOR to_ssize val (2 ^ k) + 2 ^ k
  /\ RTE_ALIGN_FLOOR to_ssize val (2 ^ k) mod 2 ^ k = 0
  /\ (forall mult : Z, mult mod 2 ^ k = 0 -> mult <= val ->
        mult <= RTE_ALIGN_FLOOR to_ssize val (2 ^ k)).
Proof.
  intros Hk Hval. pose proof (pow2_pos k ltac:(lia)) as Ha.
  rewrite (RTE_ALIGN_FLOOR_to_ssize val k Hk Hval).
  pose proof (floor_multiple_bounds val (2 ^ k) Ha) as [Hb Hm].
  split; [reflexivity|]. split; [assumption|]. split; [assumption|].
  intros mult Hmult Hge. apply Z.mod_divide in Hmult; [|lia].
  destruct Hmult as (q & ->).
  assert (q <= val / 2 ^ k); [|nia].
  apply Z.div_le_lower_bound; [assumption|]. lia.
Qed.

(** X3: on [ssize_t] and a power-of-two alignment, when [val + align - 1]
    does not overflow, [RTE_ALIGN] (which is [RTE_ALIGN_CEIL]) yields the
    smallest multiple of the alignment that is no lower than the value, and
    leaves an aligned value as it is. *)
Theorem RTE_ALIGN_ssize (val k : Z) :
  0 <= k <= 62 ->
  - 2 ^ 63 <= val ->
  val + 2 ^ k - 1 < 2 ^ 63 ->
  RTE_ALIGN to_ssize val (2 ^ k) = RTE_ALIGN_CEIL to_ssize val (2 ^ k)
  /\ val <= RTE_ALIGN to_ssize val (2 ^ k) < val + 2 ^ k
  /\ RTE_ALIGN to_ssize val (2 ^ k) mod 2 ^ k = 0
  /\ (forall mult : Z, mult mod 2 ^ k = 0 -> val <= mult ->
        RTE_ALIGN to_ssize val (2 ^ k) <= mult)
  /\ (val mod 2 ^ k = 0 -> RTE_ALIGN to_ssize val (2 ^ k) = val).
Proof.
  intros Hk Hlo Hhi. pose proof (pow2_pos k ltac:(lia)) as Ha.
  assert (Hle : 2 ^ k <= 2 ^ 62) by (apply pow2_le_mono; lia).
  split; [reflexivity|]. unfold RTE_ALIGN, RTE_ALIGN_CEIL.
  rewrite (to_ssize_small (2 ^ k)) by lia.
  pose proof (RTE_ALIGN_FLOOR_to_ssize (val + (2 ^ k - 1)) k Hk ltac:(lia)) as Heq.
  pose proof (floor_multiple_bounds (val + (2 ^ k - 1)) (2 ^ k) Ha) as [Hb Hm].
  rewrite <- Heq in Hb, Hm.
  set (res := RTE_ALIGN_FLOOR to_ssize (val + (2 ^ k - 1)) (2 ^ k)) in *.
  assert (Hleast : forall mult : Z, mult mod 2 ^ k = 0 -> val <= mult -> res <= mult).
  { intros mult Hmult Hge. apply Z.mod_divide in Hmult; [|lia].
    destruct Hmult as (q & ->). rewrite Heq.
    assert ((val + (2 ^ k - 1)) / 2 ^ k <= q); [|nia].
    apply Z.lt_succ_r. apply Z.div_lt_upper_bound; [assumption|]. nia. }
  split; [|split; [assumption|split; [assumption|]]].
  - split; [|lia].
    pose proof (floor_multiple_bounds val (2 ^ k) Ha) as [Hvb Hvm].
    destruct (Z.eq_dec (val mod 2 ^ k) 0) as [Hz|Hnz].
    + pose proof (Z.div_mod val (2 ^ k) ltac:(lia)).
      rewrite Heq. replace (val + (2 ^ k - 1)) with (val / 2 ^ k * 2 ^ k + (2 ^ k - 1)) by lia.
      rewrite Z.div_add_l by lia. rewrite (Z.div_small (2 ^ k - 1)) by lia. lia.
    + pose proof (Z.mod_pos_bound val (2 ^ k) Ha).
      pose proof (Z.div_mod val (2 ^ k) ltac:(lia)).
      rewrite Heq.
      assert (val / 2 ^ k + 1 <= (val + (2 ^ k - 1)) / 2 ^ k); [|nia].
      apply Z.div_le_lower_bound; [assumption|]. lia.
  - intros Haligned. apply Z.le_antisymm.
    + apply Hleast; [assumption|lia].
    + pose proof (Z.div_mod val (2 ^ k) ltac:(lia)).
      rewrite Heq.
      replace (val + (2 ^ k - 1)) with (val / 2 ^ k * 2 ^ k + (2 ^ k - 1)) by lia.
      rewrite Z.div_add_l by lia. rewrite (Z.div_small (2 ^ k - 1)) by lia. lia.
Qed.

(** X4: at type [uint32_t] the sum inside [RTE_ALIGN_CEIL] wraps: a value
    within [align - 1] of 2^32 is "aligned" to 0, every other value to the
    smallest multiple of the alignment that is no lower than it. *)
Theorem RTE_ALIGN_CEIL_uint32 (val k : Z) :
  0 <= k <= 31 ->
  uint32 val ->
  (val <= 2 ^ 32 - 2 ^ k ->
     RTE_ALIGN_CEIL wrap32 val (2 ^ k) = 2 ^ k * ((val + 2 ^ k - 1) / 2 ^ k)
     /\ val <= RTE_ALIGN_CEIL wrap32 val (2 ^ k) < val + 2 ^ k)
  /\ (2 ^ 32 - 2 ^ k < val -> RTE_ALIGN_CEIL wrap32 val (2 ^ k) = 0).
Proof.
  intros Hk Hval. unfold uint32 in Hval. pose proof (pow2_pos k ltac:(lia)) as Ha.
  assert (Hle : 2 ^ k <= 2 ^ 31) by (apply pow2_le_mono; lia).
  assert (Hsplit : 2 ^ 32 = 2 ^ (32 - k) * 2 ^ k).
  { rewrite <- Z.pow_add_r by lia. f_equal. lia. }
  unfold RTE_ALIGN_CEIL, RTE_ALIGN_FLOOR.
  rewrite (wrap32_small (2 ^ k)), (wrap32_small (2 ^ k - 1)) by (unfold uint32; lia).
  rewrite land_lnot_pow2 by lia.
  replace (val + (2 ^ k - 1)) with (val + 2 ^ k - 1) by lia.
  pose proof (floor_multiple_bounds (val + 2 ^ k - 1) (2 ^ k) Ha) as [Hb Hm].
  split.
  - intros Hfit.
    assert (0 <= (val + 2 ^ k - 1) / 2 ^ k) by (apply Z.div_pos; lia).
    rewrite wrap32_small by (unfold uint32; nia).
    split; [reflexivity|]. split; [|lia].
    destruct (Z_le_gt_dec val (2 ^ k * ((val + 2 ^ k - 1) / 2 ^ k))); [assumption|exfalso].
    lia.
  - intros Hwrap.
    assert (Hq : (val + 2 ^ k - 1) / 2 ^ k = 2 ^ (32 - k)).
    { symmetry. apply (Z.div_unique _ _ _ (val + 2 ^ k - 1 - 2 ^ 32)); lia. }
    rewrite Hq, Z.mul_comm, <- Hsplit. reflexivity.
Qed.

(** X5: [rte_combine32ms1b] keeps the most significant set bit of a non-zero
    32-bit value and sets every bit below it: the result is
    [2^(log2 x + 1) - 1], between [x] and [2 * x - 1]. *)
Theorem rte_combine32ms1b_fills (x : Z) :
  0 < x < 2 ^ 32 ->
  rte_combine32ms1b x = 2 ^ (Z.log2 x + 1) - 1
  /\ Z.log2 (rte_combine32ms1b x) = Z.log2 x
  /\ x <= rte_combine32ms1b x <= 2 * x - 1
  /\ (forall i : Z, 0 <= i <= Z.log2 x -> Z.testbit (rte_combine32ms1b x) i = true).
Proof.
  intros Hx. rewrite (rte_combine32ms1b_ones x Hx).
  destruct (Z.log2_spec x) as [Hlo Hhi]; [lia|].
  pose proof (Z.log2_nonneg x) as HL.
  replace (Z.succ (Z.log2 x)) with (Z.log2 x + 1) in Hhi by lia.
  assert (Hdouble : 2 ^ (Z.log2 x + 1) = 2 * 2 ^ Z.log2 x).
  { rewrite Z.pow_add_r by lia. lia. }
  pose proof (pow2_pos (Z.log2 x) HL).
  split; [reflexivity|]. split; [|split].
  - apply Z.log2_unique; [assumption|]. replace (Z.succ (Z.log2 x)) with (Z.log2 x + 1) by lia.
    lia.
  - lia.
  - intros i Hi.
    replace (2 ^ (Z.log2 x + 1) - 1) with (Z.ones (Z.log2 x + 1))
      by (rewrite Z.ones_equiv; lia).
    apply Z.ones_spec_low. lia.
Qed.

(** X6: [rte_combine32ms1b] maps 32-bit values to 32-bit values and applying
    it twice changes nothing more. *)
Theorem rte_combine32ms1b_idempotent (x : Z) :
  uint32 x ->
  uint32 (rte_combine32ms1b x)
  /\ rte_combine32ms1b (rte_combine32ms1b x) = rte_combine32ms1b x.
Proof.
  intros Hx. unfold uint32 in Hx.
  destruct (Z.eq_dec x 0) as [->|Hnz].
  { rewrite rte_combine32ms1b_zero. split; [unfold uint32; lia|reflexivity]. }
  assert (Hpos : 0 < x < 2 ^ 32) by lia.
  pose proof (rte_combine32ms1b_ones x Hpos) as Heq.
  assert (HL : Z.log2 x < 32) by (apply Z.log2_lt_pow2; lia).
  pose proof (Z.log2_nonneg x) as Hnn.
  pose proof (pow2_pos (Z.log2 x) Hnn) as Hp.
  assert (Hdouble : 2 ^ (Z.log2 x + 1) = 2 * 2 ^ Z.log2 x).
  { rewrite Z.pow_add_r by lia. lia. }
  assert (Hup : 2 ^ (Z.log2 x + 1) <= 2 ^ 32) by (apply pow2_le_mono; lia).
  assert (Hrange : 0 < rte_combine32ms1b x < 2 ^ 32) by lia.
  assert (Hlog : Z.log2 (rte_combine32ms1b x) = Z.log2 x).
  { rewrite Heq. apply Z.log2_unique; [assumption|].
    replace (Z.succ (Z.log2 x)) with (Z.log2 x + 1) by lia. lia. }
  split; [unfold uint32; lia|].
  rewrite (rte_combine32ms1b_ones _ Hrange), Hlog. symmetry. exact Heq.
Qed.

Lemma is_pow2_uint32_le (x : Z) : is_pow2 x -> x < 2 ^ 32 -> x <= 2 ^ 31.
Proof.
  intros (k & Hk & ->) Hlt. destruct (Z_le_gt_dec k 31) as [Hle|Hgt].
  - apply pow2_le_mono. lia.
  - assert (2 ^ 32 <= 2 ^ k) by (apply pow2_le_mono; lia). lia.
Qed.

Lemma rte_align32pow2_fixed (x : Z) :
  uint32 x -> x = 0 \/ is_pow2 x -> rte_align32pow2 x = x.
Proof.
  intros Hx [->|Hp]; [reflexivity|].
  pose proof (is_pow2_pos x Hp). unfold uint32 in Hx.
  pose proof (is_pow2_uint32_le x Hp ltac:(lia)).
  destruct (rte_align32pow2_least x ltac:(lia)) as (_ & Hge & Hmin).
  specialize (Hmin x Hp ltac:(lia)). lia.
Qed.

(** X7: [rte_align32pow2] rounds every [x] in [1 .. 2^31] up to the next
    power of two: the result is the least power of two that is at least [x],
    and it stays below [2 * x]. *)
Theorem rte_align32pow2_next_power (x : Z) :
  1 <= x <= 2 ^ 31 ->
  least_pow2_ge x (rte_align32pow2 x)
  /\ x <= rte_align32pow2 x < 2 * x.
Proof.
  intros Hx. pose proof (rte_align32pow2_least x Hx) as Hleast.
  split; [assumption|]. destruct Hleast as ((j & Hj & Heq) & Hge & Hmin).
  split; [assumption|]. rewrite Heq in *.
  destruct (Z.eq_dec j 0) as [->|Hnz]; [change (2 ^ 0) with 1; lia|].
  assert (Hhalf : 2 ^ j = 2 * 2 ^ (j - 1)).
  { rewrite <- Z.pow_succ_r by lia. f_equal. lia. }
  destruct (Z_lt_le_dec (2 ^ (j - 1)) x) as [Hlt|Hle]; [lia|].
  specialize (Hmin (2 ^ (j - 1)) ltac:(exists (j - 1); split; [lia|reflexivity]) Hle).
  pose proof (pow2_pos (j - 1) ltac:(lia)). lia.
Qed.

(** X8: the values [rte_align32pow2] leaves unchanged are exactly the ones
    [POWEROF2] accepts (0 and the powers of two), and rounding twice is the
    same as rounding once. *)
Theorem rte_align32pow2_fixed_points (x : Z) :
  uint32 x ->
  (rte_align32pow2 x = x <-> POWEROF2 x = true)
  /\ rte_align32pow2 (rte_align32pow2 x) = rte_align32pow2 x.
Proof.
  intros Hx. split.
  - rewrite (POWEROF2_spec x Hx). split.
    + intros Hfix. destruct (rte_align32pow2_cases x Hx) as [Hz|Hp].
      * left. congruence.
      * right. now rewrite <- Hfix.
    + apply (rte_align32pow2_fixed x Hx).
  - apply rte_align32pow2_fixed; [apply rte_align32pow2_range|].
    apply (rte_align32pow2_cases x Hx).
Qed.

(** X9: [rte_align32pow2] returns 0 exactly on 0 and on the values above
    2^31, for which no 32-bit power of two is large enough. *)
Theorem rte_align32pow2_zero_iff (x : Z) :
  uint32 x ->
  (rte_align32pow2 x = 0 <-> x = 0 \/ 2 ^ 31 < x).
Proof.
  intros Hx. split.
  - intros Hz. destruct (Z.eq_dec x 0) as [|Hnz]; [now left|right].
    destruct (Z_le_gt_dec x (2 ^ 31)) as [Hle|Hgt]; [|lia].
    unfold uint32 in Hx.
    destruct (rte_align32pow2_least x ltac:(lia)) as (_ & Hge & _). lia.
  - apply (rte_align32pow2_wraps x Hx).
Qed.

(** X10: on [1 .. 2^31] [rte_align32pow2] is monotone. *)
Theorem rte_align32pow2_monotone (x y : Z) :
  1 <= x -> x <= y -> y <= 2 ^ 31 ->
  rte_align32pow2 x <= rte_align32pow2 y.
Proof.
  intros Hx Hxy Hy.
  destruct (rte_align32pow2_least x ltac:(lia)) as (_ & _ & Hmin).
  destruct (rte_align32pow2_least y ltac:(lia)) as (Hp & Hge & _).
  apply Hmin; [assumption|lia].
Qed.

(** ** Further properties of rte_ring_get_memsize and rte_ring_init *)

Section MoreSetup.
Context `{rte_ring_h} {E : Type} `{my_sys E}.

Lemma rte_ring_get_memsize_accepted (c : Z) (w : world E) :
  uint32 c -> c = 0 \/ is_pow2 c -> c <= RTE_RING_SZ_MASK ->
  0 <= sizeof_rte_ring < 2 ^ 61 ->
  (rte_ring_get_memsize c w).1 = 64 * ((sizeof_rte_ring + c * 8 + 63) / 64).
Proof.
  intros Hc Hp Hle Hs.
  assert (Hok : negb (POWEROF2 c) || (RTE_RING_SZ_MASK <? c) = false).
  { apply (size_check_passes c Hc). split; assumption. }
  now rewrite (rte_ring_get_memsize_valid c w Hc Hs Hok).
Qed.

(** X11: for a count it accepts, [rte_ring_get_memsize] adds less than one
    cache line of padding to the structure and the [c] pointers; when the
    structure size is a multiple of the cache line (the build-time check of
    [rte_ring_init]) a count of at least 8 gets no padding at all, and a
    smaller non-zero count gets exactly one cache line for its slots. *)
Theorem rte_ring_get_memsize_padding (c : Z) (w : world E) :
  uint32 c -> c = 0 \/ is_pow2 c -> c <= RTE_RING_SZ_MASK ->
  0 <= sizeof_rte_ring < 2 ^ 61 ->
  sizeof_rte_ring + c * sizeof_voidp <= (rte_ring_get_memsize c w).1
    < sizeof_rte_ring + c * sizeof_voidp + RTE_CACHE_LINE_SIZE
  /\ (sizeof_rte_ring mod RTE_CACHE_LINE_SIZE = 0 -> 8 <= c ->
      (rte_ring_get_memsize c w).1 = sizeof_rte_ring + c * sizeof_voidp)
  /\ (sizeof_rte_ring mod RTE_CACHE_LINE_SIZE = 0 -> 0 < c < 8 ->
      (rte_ring_get_memsize c w).1 = sizeof_rte_ring + RTE_CACHE_LINE_SIZE).
Proof.
  intros Hc Hp Hle Hs. rewrite (rte_ring_get_memsize_accepted c w Hc Hp Hle Hs).
  unfold sizeof_voidp, RTE_CACHE_LINE_SIZE.
  pose proof (Z.div_mod (sizeof_rte_ring + c * 8 + 63) 64 ltac:(lia)) as Hdm.
  pose proof (Z.mod_pos_bound (sizeof_rte_ring + c * 8 + 63) 64 ltac:(lia)) as Hmb.
  split; [lia|]. split.
  - intros Hal Hbig. destruct Hp as [->|(k & Hk & ->)]; [lia|].
    assert (Hk3 : 3 <= k).
    { destruct (Z_lt_le_dec k 3) as [Hlt|]; [|assumption].
      assert (2 ^ k <= 2 ^ 2) by (apply pow2_le_mono; lia). lia. }
    assert (Hc8 : 2 ^ k = 8 * 2 ^ (k - 3)).
    { change 8 with (2 ^ 3). rewrite <- Z.pow_add_r by lia. f_equal. lia. }
    pose proof (Z.div_mod sizeof_rte_ring 64 ltac:(lia)) as Hsz. rewrite Hal in Hsz.
    replace (sizeof_rte_ring + 2 ^ k * 8 + 63)
      with ((sizeof_rte_ring / 64 + 2 ^ (k - 3)) * 64 + 63) by lia.
    rewrite Z.div_add_l by lia. change (63 / 64) with 0. lia.
  - intros Hal Hsmall.
    pose proof (Z.div_mod sizeof_rte_ring 64 ltac:(lia)) as Hsz. rewrite Hal in Hsz.
    assert (Hq : (sizeof_rte_ring + c * 8 + 63) / 64 = sizeof_rte_ring / 64 + 1).
    { symmetry. apply (Z.div_unique _ _ _ (c * 8 - 1)); lia. }
    rewrite Hq. lia.
Qed.

(** X12: among the counts it accepts, [rte_ring_get_memsize] is monotone: a
    larger ring never needs fewer bytes. *)
Theorem rte_ring_get_memsize_monotone (c1 c2 : Z) (w1 w2 : world E) :
  uint32 c1 -> uint32 c2 ->
  c1 = 0 \/ is_pow2 c1 -> c2 = 0 \/ is_pow2 c2 ->
  c1 <= c2 -> c2 <= RTE_RING_SZ_MASK ->
  0 <= sizeof_rte_ring < 2 ^ 61 ->
  (rte_ring_get_memsize c1 w1).1 <= (rte_ring_get_memsize c2 w2).1.
Proof.
  intros H1 H2 Hp1 Hp2 Hle Hmask Hs.
  rewrite (rte_ring_get_memsize_accepted c1 w1 H1 Hp1 ltac:(lia) Hs).
  rewrite (rte_ring_get_memsize_accepted c2 w2 H2 Hp2 Hmask Hs).
  apply Z.mul_le_mono_nonneg_l; [lia|]. apply Z.div_le_mono; lia.
Qed.

(** X13: [rte_ring_init] writes through [r] only: every other ring in memory
    is as before; a successful call talks to the host not at all, a failing
    one returns [-EINVAL] after exactly one [my_printf_error] that names the
    size limit. *)
Theorem rte_ring_init_frame (r count flags : Z) (w : world E) :
  (forall other : Z, other <> r ->
     rings (rte_ring_init r count flags w).2 !! other = rings w !! other)
  /\ ((rte_ring_init r count flags w).1 = 0 ->
      env (rte_ring_init r count flags w).2 = env w
      /\ calls (rte_ring_init r count flags w).2 = calls w)
  /\ ((rte_ring_init r count flags w).1 <> 0 ->
      (rte_ring_init r count flags w).1 = - EINVAL
      /\ calls (rte_ring_init r count flags w).2 =
           calls w ++ [Call_my_printf_error invalid_size_init [RTE_RING_SZ_MASK]]).
Proof.
  destruct (Z.eq_dec (Z.land flags RING_F_EXACT_SZ) 0) as [Hflag|Hflag].
  - destruct (negb (POWEROF2 count) || (RTE_RING_SZ_MASK <? count)) eqn:Hchk.
    + rewrite (rte_ring_init_invalid r count flags w Hflag Hchk). cbn [fst snd rings calls env].
      split; [|split].
      * intros other Hne. apply lookup_insert_ne. congruence.
      * unfold EINVAL. discriminate.
      * intros _. split; reflexivity.
    + rewrite (rte_ring_init_valid r count flags w Hflag Hchk). cbn [fst snd rings calls env].
      split; [|split].
      * intros other Hne. apply lookup_insert_ne. congruence.
      * intros _. split; reflexivity.
      * intros Hne. contradiction Hne. reflexivity.
  - rewrite (rte_ring_init_exact r count flags w Hflag). cbn [fst snd rings calls env].
    split; [|split].
    + intros other Hne. apply lookup_insert_ne. congruence.
    + intros _. split; reflexivity.
    + intros Hne. contradiction Hne. reflexivity.
Qed.

(** X14: a ring that [rte_ring_init] accepts is consistent: for a non-zero
    count without exact-size mode, or a count below 2^31 with it, [size] is a
    power of two of at most 2^31, [mask] is [size - 1], the capacity lies in
    [0 .. mask], [size] is at most [2 * capacity + 1] (about half of the
    slots or more are usable), the flags are stored and the four cursors
    are 0. *)
Theorem rte_ring_init_consistent (r count flags : Z) (w : world E) :
  uint32 count ->
  (rte_ring_init r count flags w).1 = 0 ->
  (Z.land flags RING_F_EXACT_SZ = 0 -> 0 < count) ->
  (Z.land flags RING_F_EXACT_SZ <> 0 -> count < 2 ^ 31) ->
  exists s : rte_ring,
    rings (rte_ring_init r count flags w).2 !! r = Some s
    /\ is_pow2 (r_size s) /\ r_size s <= 2 ^ 31
    /\ r_mask s = r_size s - 1
    /\ 0 <= r_capacity s <= r_mask s
    /\ r_size s <= 2 * r_capacity s + 1
    /\ r_flags s = flags
    /\ prod_head s = 0 /\ prod_tail s = 0 /\ cons_head s = 0 /\ cons_tail s = 0.
Proof.
  intros Hc Hret Hdef Hex. unfold uint32 in Hc.
  destruct (Z.eq_dec (Z.land flags RING_F_EXACT_SZ) 0) as [Hflag|Hflag].
  - specialize (Hdef Hflag).
    destruct (negb (POWEROF2 count) || (RTE_RING_SZ_MASK <? count)) eqn:Hchk.
    { rewrite (rte_ring_init_invalid r count flags w Hflag Hchk) in Hret.
      cbn [fst] in Hret. unfold EINVAL in Hret. discriminate. }
    rewrite (rte_ring_init_valid r count flags w Hflag Hchk). cbn [snd rings].
    eexists. split; [apply lookup_insert_eq|]. cbn.
    apply (size_check_passes count ltac:(unfold uint32; lia)) in Hchk.
    destruct Hchk as [[Hz|Hp] _]; [lia|].
    pose proof (is_pow2_uint32_le count Hp ltac:(lia)).
    rewrite wrap32_small by (unfold uint32; lia).
    repeat split; try assumption; try reflexivity; lia.
  - specialize (Hex Hflag).
    rewrite (rte_ring_init_exact r count flags w Hflag). cbn [snd rings].
    eexists. split; [apply lookup_insert_eq|]. cbn.
    rewrite (wrap32_small (count + 1)) by (unfold uint32; lia).
    destruct (rte_align32pow2_least (count + 1) ltac:(lia)) as (Hp & Hge & Hmin).
    pose proof (rte_align32pow2_range (count + 1)) as Hr. unfold uint32 in Hr.
    pose proof (is_pow2_uint32_le _ Hp ltac:(lia)).
    rewrite wrap32_small by (unfold uint32; lia).
    assert (Hhalf : rte_align32pow2 (count + 1) <= 2 * count + 1).
    { destruct Hp as (j & Hj & Heq). rewrite Heq in *.
      destruct (Z.eq_dec j 0) as [->|Hnz]; [change (2 ^ 0) with 1; lia|].
      assert (Hd : 2 ^ j = 2 * 2 ^ (j - 1)).
      { rewrite <- Z.pow_succ_r by lia. f_equal. lia. }
      destruct (Z_lt_le_dec (2 ^ (j - 1)) (count + 1)) as [Hlt|Hle]; [lia|].
      specialize (Hmin (2 ^ (j - 1)) ltac:(exists (j - 1); split; [lia|reflexivity]) Hle).
      pose proof (pow2_pos (j - 1) ltac:(lia)). lia. }
    repeat split; try assumption; try reflexivity; lia.
Qed.
End MoreSetup.

Section MoreInit.
Context `{rte_ring_h} {E : Type} `{my_sys E}.

(** X15: exact-size mode with a count of [2^k - 1] lays the ring out as the
    default mode does with a count of [2^k]: both calls succeed and store the
    same [size], [mask] and [capacity], the capacity being [2^k - 1]. *)
Theorem rte_ring_init_exact_matches_default
    (k r1 r2 exact_flags default_flags : Z) (w1 w2 : world E) :
  0 <= k <= 31 ->
  2 ^ k <= RTE_RING_SZ_MASK ->
  Z.land exact_flags RING_F_EXACT_SZ <> 0 ->
  Z.land default_flags RING_F_EXACT_SZ = 0 ->
  (rte_ring_init r1 (2 ^ k - 1) exact_flags w1).1 = 0
  /\ (rte_ring_init r2 (2 ^ k) default_flags w2).1 = 0
  /\ exists s1 s2 : rte_ring,
       rings (rte_ring_init r1 (2 ^ k - 1) exact_flags w1).2 !! r1 = Some s1
       /\ rings (rte_ring_init r2 (2 ^ k) default_flags w2).2 !! r2 = Some s2
       /\ r_size s1 = r_size s2
       /\ r_mask s1 = r_mask s2
       /\ r_capacity s1 = r_capacity s2
       /\ r_capacity s1 = 2 ^ k - 1.
Proof.
  intros Hk Hmask Hexact Hdefault.
  pose proof (pow2_pos k ltac:(lia)) as Hpos.
  assert (Hle : 2 ^ k <= 2 ^ 31) by (apply pow2_le_mono; lia).
  assert (Hp : is_pow2 (2 ^ k)) by (exists k; split; [lia|reflexivity]).
  assert (Hc : uint32 (2 ^ k)) by (unfold uint32; lia).
  assert (Hok : negb (POWEROF2 (2 ^ k)) || (RTE_RING_SZ_MASK <? 2 ^ k) = false).
  { apply (size_check_passes _ Hc). split; [now right|assumption]. }
  rewrite (rte_ring_init_exact r1 (2 ^ k - 1) exact_flags w1 Hexact).
  rewrite (rte_ring_init_valid r2 (2 ^ k) default_flags w2 Hdefault Hok).
  cbn [fst snd rings]. split; [reflexivity|]. split; [reflexivity|].
  eexists. eexists. split; [apply lookup_insert_eq|]. split; [apply lookup_insert_eq|].
  cbn. replace (2 ^ k - 1 + 1) with (2 ^ k) by lia.
  rewrite (wrap32_small (2 ^ k)) by assumption.
  rewrite (rte_align32pow2_fixed (2 ^ k) Hc ltac:(now right)).
  rewrite wrap32_small by (unfold uint32; lia).
  repeat split; reflexivity.
Qed.

(** X16: in exact-size mode a power-of-two count below 2^31 doubles the slot
    array: [size] is [2 * count], of which [count] slots are usable. *)
Theorem rte_ring_init_exact_power_doubles (r count flags : Z) (w : world E) :
  is_pow2 count ->
  count < 2 ^ 31 ->
  Z.land flags RING_F_EXACT_SZ <> 0 ->
  exists s : rte_ring,
    rings (rte_ring_init r count flags w).2 !! r = Some s
    /\ r_size s = 2 * count
    /\ r_mask s = 2 * count - 1
    /\ r_capacity s = count.
Proof.
  intros Hp Hlt Hflag. pose proof (is_pow2_pos count Hp) as Hpos.
  rewrite (rte_ring_init_exact r count flags w Hflag). cbn [snd rings].
  eexists. split; [apply lookup_insert_eq|]. cbn.
  rewrite (wrap32_small (count + 1)) by (unfold uint32; lia).
  destruct (rte_align32pow2_least (count + 1) ltac:(lia)) as ((j & Hj & Hsz) & Hge & Hmin).
  destruct Hp as (i & Hi & ->).
  assert (Hnext : is_pow2 (2 * 2 ^ i)).
  { exists (i + 1). split; [lia|]. rewrite Z.pow_add_r by lia. lia. }
  specialize (Hmin _ Hnext ltac:(lia)).
  assert (Hsize : rte_align32pow2 (2 ^ i + 1) = 2 * 2 ^ i).
  { rewrite Hsz in *. destruct (Z_le_gt_dec j i) as [Hle|Hgt].
    - assert (2 ^ j <= 2 ^ i) by (apply pow2_le_mono; lia). lia.
    - assert (2 ^ (i + 1) <= 2 ^ j) by (apply pow2_le_mono; lia).
      rewrite Z.pow_add_r in * by lia. lia. }
  rewrite Hsize. rewrite wrap32_small by (unfold uint32; lia).
  repeat split; reflexivity.
Qed.

(** X17: in exact-size mode a count of 2^31 or more is accepted (the call
    returns 0) although no 32-bit size can hold it: the ring is left with
    [size = 0], [mask = 0xffffffff] and [capacity = count]. *)
Theorem rte_ring_init_exact_overflow (r count flags : Z) (w : world E) :
  uint32 count ->
  2 ^ 31 <= count ->
  Z.land flags RING_F_EXACT_SZ <> 0 ->
  (rte_ring_init r count flags w).1 = 0
  /\ exists s : rte_ring,
       rings (rte_ring_init r count flags w).2 !! r = Some s
       /\ r_size s = 0
       /\ r_mask s = 2 ^ 32 - 1
       /\ r_capacity s = count.
Proof.
  intros Hc Hbig Hflag. unfold uint32 in Hc.
  rewrite (rte_ring_init_exact r count flags w Hflag). cbn [fst snd rings].
  split; [reflexivity|]. eexists. split; [apply lookup_insert_eq|]. cbn.
  assert (Hsize : rte_align32pow2 (wrap32 (count + 1)) = 0).
  { apply rte_align32pow2_wraps; [apply wrap32_range|].
    destruct (Z.eq_dec count (2 ^ 32 - 1)) as [->|Hne]; [left; reflexivity|right].
    rewrite wrap32_small by (unfold uint32; lia). lia. }
  rewrite Hsize. repeat split; reflexivity.
Qed.
End MoreInit.

(** ** Further properties of rte_ring_create and rte_ring_free *)

Section MoreCreate.
Context `{rte_ring_h} {E : Type} `{my_sys E}.

(** The three ways through [rte_ring_create]: the size is refused, the
    allocation fails, or the ring is built.  The branch that frees the block
    after a failed [rte_ring_init] is never taken. *)
Lemma rte_ring_create_cases (count flags : Z) (w : world E) :
  uint32 count ->
  0 <= sizeof_rte_ring < 2 ^ 61 ->
  let rounded := if negb (Z.land flags RING_F_EXACT_SZ =? 0)
                 then rte_align32pow2 (wrap32 (count + 1)) else count in
  let bytes := 64 * ((sizeof_rte_ring + rounded * 8 + 63) / 64) in
  let p := (my_malloc bytes (env w)).1 in
  (negb (POWEROF2 rounded) || (RTE_RING_SZ_MASK <? rounded) = true
   /\ rte_ring_create count flags w =
        (NULL, World (my_printf_error invalid_size_memsize [RTE_RING_SZ_MASK] (env w))
                 (rings w)
                 (calls w ++ [Call_my_printf_error invalid_size_memsize
                                [RTE_RING_SZ_MASK]])))
  \/ (negb (POWEROF2 rounded) || (RTE_RING_SZ_MASK <? rounded) = false
      /\ p = NULL
      /\ rte_ring_create count flags w =
           (NULL, World (my_printf_error "Cannot reserve memory" []
                           (my_malloc bytes (env w)).2)
                    (rings w)
                    ((calls w ++ [Call_my_malloc bytes p])
                       ++ [Call_my_printf_error "Cannot reserve memory" []])))
  \/ (negb (POWEROF2 rounded) || (RTE_RING_SZ_MASK <? rounded) = false
      /\ p <> NULL
      /\ rte_ring_create count flags w =
           (p, World (my_malloc bytes (env w)).2
                 (<[p := Rte_ring flags rounded (wrap32 (rounded - 1))
                           (if negb (Z.land flags RING_F_EXACT_SZ =? 0)
                            then count else wrap32 (rounded - 1)) 0 0
                           (if Z.land flags RING_F_SP_ENQ =? 0
                            then __IS_MP else __IS_SP) 0 0
                           (if Z.land flags RING_F_SC_DEQ =? 0
                            then __IS_MC else __IS_SC)]> (rings w))
                 (calls w ++ [Call_my_malloc bytes p]))).
Proof.
  intros Hc Hs rounded bytes p. unfold rte_ring_create, bind. fold rounded.
  assert (Hr : uint32 rounded).
  { unfold rounded. destruct (negb _); [apply rte_align32pow2_range|assumption]. }
  destruct (negb (POWEROF2 rounded) || (RTE_RING_SZ_MASK <? rounded)) eqn:Hchk.
  { left. split; [reflexivity|].
    rewrite (rte_ring_get_memsize_invalid rounded w Hchk). cbv beta iota.
    change (- EINVAL <? 0) with true. reflexivity. }
  right. rewrite (rte_ring_get_memsize_valid rounded w Hr Hs Hchk). cbv beta iota.
  fold bytes.
  pose proof (align64_bounds (sizeof_rte_ring + rounded * 8)) as [Hge _].
  assert (Hnonneg : (bytes <? 0) = false).
  { apply Z.ltb_ge. unfold bytes. unfold uint32 in Hr. lia. }
  rewrite Hnonneg. unfold call_my_malloc. subst p.
  destruct (my_malloc bytes (env w)) as [p e]. cbv beta iota. cbn [fst snd].
  destruct (Z.eqb_spec p NULL) as [Hnull|Hlive].
  { left. split; [reflexivity|]. split; [assumption|]. subst p. reflexivity. }
  right. split; [reflexivity|]. split; [assumption|].
  assert (Hinit : rte_ring_init p count flags
                    (World e (rings w) (calls w ++ [Call_my_malloc bytes p]))
                  = (0, World e
                          (<[p := Rte_ring flags rounded (wrap32 (rounded - 1))
                                    (if negb (Z.land flags RING_F_EXACT_SZ =? 0)
                                     then count else wrap32 (rounded - 1)) 0 0
                                    (if Z.land flags RING_F_SP_ENQ =? 0
                                     then __IS_MP else __IS_SP) 0 0
                                    (if Z.land flags RING_F_SC_DEQ =? 0
                                     then __IS_MC else __IS_SC)]> (rings w))
                          (calls w ++ [Call_my_malloc bytes p]))).
  { unfold rounded in *.
    destruct (Z.eqb_spec (Z.land flags RING_F_EXACT_SZ) 0) as [Hflag|Hflag];
      cbn [negb] in *.
    - now rewrite (rte_ring_init_valid p count flags _ Hflag Hchk).
    - now rewrite (rte_ring_init_exact p count flags _ Hflag). }
  rewrite Hinit. cbv beta iota. change (negb (0 =? 0)) with false. reflexivity.
Qed.

(** X18: [rte_ring_create] returns a ring exactly when the count it rounded
    (to a power of two in exact-size mode, left alone otherwise) is 0 or a
    power of two within [RTE_RING_SZ_MASK] and [my_malloc] returns a block of
    [rte_ring_get_memsize] bytes for it. *)
Theorem rte_ring_create_succeeds_iff (count flags : Z) (w : world E) :
  uint32 count ->
  0 <= sizeof_rte_ring < 2 ^ 61 ->
  let rounded := if negb (Z.land flags RING_F_EXACT_SZ =? 0)
                 then rte_align32pow2 (wrap32 (count + 1)) else count in
  (rte_ring_create count flags w).1 <> NULL
  <-> (rounded = 0 \/ is_pow2 rounded)
      /\ rounded <= RTE_RING_SZ_MASK
      /\ (my_malloc (rte_ring_get_memsize rounded w).1 (env w)).1 <> NULL.
Proof.
  intros Hc Hs rounded.
  assert (Hr : uint32 rounded).
  { unfold rounded. destruct (negb _); [apply rte_align32pow2_range|assumption]. }
  pose proof (rte_ring_create_cases count flags w Hc Hs) as Hcases.
  cbv zeta in Hcases. fold rounded in Hcases.
  destruct Hcases as [(Hchk & ->)|[(Hchk & Hp & ->)|(Hchk & Hp & ->)]]; cbn [fst].
  - split; [congruence|]. intros (Hpow & Hle & _).
    assert (negb (POWEROF2 rounded) || (RTE_RING_SZ_MASK <? rounded) = false)
      by (apply (size_check_passes rounded Hr); split; assumption).
    congruence.
  - rewrite (rte_ring_get_memsize_valid rounded w Hr Hs Hchk). cbn [fst].
    split; [congruence|]. intros (_ & _ & Hlive). contradiction.
  - rewrite (rte_ring_get_memsize_valid rounded w Hr Hs Hchk). cbn [fst].
    apply (size_check_passes rounded Hr) in Hchk. destruct Hchk as [Hpow Hle].
    split; [|intros _; assumption]. intros _. repeat split; assumption.
Qed.

(** X19: [rte_ring_create] never calls [my_free]; when it returns [NULL] it
    has left the rings in memory as they were and holds no block (any
    [my_malloc] it made returned [NULL]); when it returns a ring it has
    written to that block only. *)
Theorem rte_ring_create_no_free_no_leak (count flags : Z) (w : world E) :
  uint32 count ->
  0 <= sizeof_rte_ring < 2 ^ 61 ->
  exists made : list call,
    calls (rte_ring_create count flags w).2 = calls w ++ made
    /\ (forall ptr : Z, ~ In (Call_my_free ptr) made)
    /\ ((rte_ring_create count flags w).1 = NULL ->
        rings (rte_ring_create count flags w).2 = rings w
        /\ forall size ptr : Z, In (Call_my_malloc size ptr) made -> ptr = NULL)
    /\ ((rte_ring_create count flags w).1 <> NULL ->
        forall other : Z, other <> (rte_ring_create count flags w).1 ->
          rings (rte_ring_create count flags w).2 !! other = rings w !! other).
Proof.
  intros Hc Hs.
  pose proof (rte_ring_create_cases count flags w Hc Hs) as Hcases.
  cbv zeta in Hcases.
  destruct Hcases as [(Hchk & ->)|[(Hchk & Hp & ->)|(Hchk & Hp & ->)]];
    cbn [fst snd calls rings].
  - eexists. split; [reflexivity|]. split; [|split].
    + intros ptr [Hin|[]]. discriminate.
    + intros _. split; [reflexivity|]. intros size ptr [Hin|[]]. discriminate.
    + intros Hne. contradiction Hne. reflexivity.
  - rewrite <- app_assoc. eexists. split; [reflexivity|]. split; [|split].
    + intros ptr [Hin|[Hin|[]]]; discriminate.
    + intros _. split; [reflexivity|].
      intros size ptr [Hin|[Hin|[]]]; [|discriminate].
      injection Hin as _ <-. assumption.
    + intros Hne. contradiction Hne. reflexivity.
  - eexists. split; [reflexivity|]. split; [|split].
    + intros ptr [Hin|[]]. discriminate.
    + intros Hnull. contradiction.
    + intros _ other Hne. apply lookup_insert_ne. congruence.
Qed.

(** X20: freeing the ring [rte_ring_create] returned hands [my_free] the very
    block [my_malloc] gave, with nothing else asked of the host in between;
    the ring is gone from memory and every other ring is as before the
    creation. *)
Theorem rte_ring_create_then_free (count flags : Z) (w : world E) :
  uint32 count ->
  0 <= sizeof_rte_ring < 2 ^ 61 ->
  (rte_ring_create count flags w).1 <> NULL ->
  exists bytes : Z,
    calls (rte_ring_free (rte_ring_create count flags w).1
             (rte_ring_create count flags w).2).2
      = calls w ++ [Call_my_malloc bytes (rte_ring_create count flags w).1;
                    Call_my_free (rte_ring_create count flags w).1]
    /\ rings (rte_ring_free (rte_ring_create count flags w).1
                (rte_ring_create count flags w).2).2
         !! (rte_ring_create count flags w).1 = None
    /\ forall other : Z, other <> (rte_ring_create count flags w).1 ->
         rings (rte_ring_free (rte_ring_create count flags w).1
                  (rte_ring_create count flags w).2).2 !! other
         = rings w !! other.
Proof.
  intros Hc Hs.
  pose proof (rte_ring_create_cases count flags w Hc Hs) as Hcases.
  cbv zeta in Hcases.
  destruct Hcases as [(Hchk & ->)|[(Hchk & Hp & ->)|(Hchk & Hp & ->)]];
    cbn [fst snd]; try congruence.
  intros _. unfold rte_ring_free.
  destruct (Z.eqb_spec (my_malloc
              (64 * ((sizeof_rte_ring
                      + (if negb (Z.land flags RING_F_EXACT_SZ =? 0)
                         then rte_align32pow2 (wrap32 (count + 1)) else count) * 8
                      + 63) / 64)) (env w)).1 NULL) as [Hnull|_]; [contradiction|].
  unfold call_my_free. cbn [snd calls rings].
  eexists. split; [rewrite <- app_assoc; reflexivity|]. split.
  - apply lookup_delete_eq.
  - intros other Hne. rewrite lookup_delete_ne by congruence.
    apply lookup_insert_ne. congruence.
Qed.

(** X21: when the size is refused, [rte_ring_create] returns [NULL] without
    asking for memory: its only call to the host is the [my_printf_error]
    of [rte_ring_get_memsize].  This happens without exact-size mode for a
    non-zero count that is not a power of two or exceeds [RTE_RING_SZ_MASK],
    and in exact-size mode for a count below 2^31 that is not below the
    limit. *)
Theorem rte_ring_create_refuses_size (count flags : Z) (w : world E) :
  uint32 count ->
  (Z.land flags RING_F_EXACT_SZ = 0 /\ 0 < count
   /\ (~ is_pow2 count \/ RTE_RING_SZ_MASK < count))
  \/ (Z.land flags RING_F_EXACT_SZ <> 0 /\ RTE_RING_SZ_MASK <= count < 2 ^ 31) ->
  (rte_ring_create count flags w).1 = NULL
  /\ rings (rte_ring_create count flags w).2 = rings w
  /\ calls (rte_ring_create count flags w).2 =
       calls w ++ [Call_my_printf_error invalid_size_memsize [RTE_RING_SZ_MASK]].
Proof.
  intros Hc Hbad. unfold rte_ring_create, bind.
  set (rounded := if negb (Z.land flags RING_F_EXACT_SZ =? 0)
                  then rte_align32pow2 (wrap32 (count + 1)) else count).
  assert (Hchk : negb (POWEROF2 rounded) || (RTE_RING_SZ_MASK <? rounded) = true).
  { unfold rounded. destruct Hbad as [(Hflag & Hpos & Hbad)|(Hflag & Hrange)].
    - apply Z.eqb_eq in Hflag. rewrite Hflag. cbn [negb].
      now apply (size_check_fails count Hc Hpos).
    - apply Z.eqb_neq in Hflag. rewrite Hflag. cbn [negb].
      unfold uint32 in Hc. rewrite wrap32_small by (unfold uint32; lia).
      destruct (rte_align32pow2_least (count + 1) ltac:(lia)) as (_ & Hge & _).
      apply orb_true_iff. right. apply Z.ltb_lt. lia. }
  rewrite (rte_ring_get_memsize_invalid rounded w Hchk). cbv beta iota.
  change (- EINVAL <? 0) with true. cbv beta iota. unfold ret. cbn [fst snd rings calls].
  repeat split; reflexivity.
Qed.

(** X22: in exact-size mode [rte_ring_create] does not refuse a count of 2^31
    or more: the rounding wraps to 0, which the size check lets through, so
    with a working [my_malloc] the caller gets a ring of capacity [count]
    whose block has room for the structure only ([size] is 0, [mask] is
    [0xffffffff]). *)
Theorem rte_ring_create_exact_overflow (count flags : Z) (w : world E) :
  uint32 count ->
  2 ^ 31 <= count ->
  Z.land flags RING_F_EXACT_SZ <> 0 ->
  0 <= RTE_RING_SZ_MASK ->
  0 <= sizeof_rte_ring < 2 ^ 61 ->
  (my_malloc (64 * ((sizeof_rte_ring + 63) / 64)) (env w)).1 <> NULL ->
  (rte_ring_create count flags w).1 <> NULL
  /\ calls (rte_ring_create count flags w).2 =
       calls w ++ [Call_my_malloc (64 * ((sizeof_rte_ring + 63) / 64))
                     (rte_ring_create count flags w).1]
  /\ exists s : rte_ring,
       rings (rte_ring_create count flags w).2 !! (rte_ring_create count flags w).1
         = Some s
       /\ r_size s = 0
       /\ r_mask s = 2 ^ 32 - 1
       /\ r_capacity s = count.
Proof.
  intros Hc Hbig Hflag Hmask Hs Hlive. unfold uint32 in Hc.
  assert (Hzero : rte_align32pow2 (wrap32 (count + 1)) = 0).
  { apply rte_align32pow2_wraps; [apply wrap32_range|].
    destruct (Z.eq_dec count (2 ^ 32 - 1)) as [->|Hne]; [left; reflexivity|right].
    rewrite wrap32_small by (unfold uint32; lia). lia. }
  pose proof (rte_ring_create_cases count flags w ltac:(unfold uint32; lia) Hs) as Hcases.
  cbv zeta in Hcases. apply Z.eqb_neq in Hflag. rewrite Hflag in Hcases.
  cbn [negb] in Hcases. rewrite Hzero in Hcases.
  change (0 * 8) with 0 in Hcases. rewrite Z.add_0_r in Hcases.
  destruct Hcases as [(Hchk & _)|[(_ & Hp & _)|(_ & Hp & ->)]].
  - exfalso. change (POWEROF2 0) with true in Hchk. cbn [negb orb] in Hchk.
    apply Z.ltb_lt in Hchk. lia.
  - contradiction.
  - cbn [fst snd calls rings]. split; [assumption|]. split; [reflexivity|].
    eexists. split; [apply lookup_insert_eq|]. cbn. repeat split; reflexivity.
Qed.
End MoreCreate.

Section CreateZeroSize.
Context `{rte_ring_h} {E : Type} `{my_sys E}.

(** C9 (at the failing inputs): a count of 0 without exact-size mode, and a
    count of 2^31 or more with it, reach [rte_ring_get_memsize] as 0, which
    [POWEROF2] lets through although 0 is not a power of two.  With a working
    [my_malloc], [rte_ring_create] then returns a ring whose block holds the
    structure and less than one cache line more, while the ring has
    [size = 0], [mask = 0xffffffff] and a capacity of at least 2^31: every
    slot index [c & mask] from 7 on lies outside the block, so the block
    does not cover the slots the ring addresses. *)
Theorem rte_ring_create_zero_size_uncovered (count flags : Z) (w : world E) :
  uint32 count ->
  (Z.land flags RING_F_EXACT_SZ = 0 /\ count = 0)
  \/ (Z.land flags RING_F_EXACT_SZ <> 0 /\ 2 ^ 31 <= count) ->
  0 <= RTE_RING_SZ_MASK ->
  0 <= sizeof_rte_ring < 2 ^ 61 ->
  (my_malloc (64 * ((sizeof_rte_ring + 63) / 64)) (env w)).1 <> NULL ->
  ~ is_pow2 0
  /\ (rte_ring_create count flags w).1 <> NULL
  /\ exists (bytes : Z) (s : rte_ring),
       calls (rte_ring_create count flags w).2 =
         calls w ++ [Call_my_malloc bytes (rte_ring_create count flags w).1]
       /\ rings (rte_ring_create count flags w).2
            !! (rte_ring_create count flags w).1 = Some s
       /\ bytes < sizeof_rte_ring + RTE_CACHE_LINE_SIZE
       /\ r_size s = 0
       /\ r_mask s = 2 ^ 32 - 1
       /\ 2 ^ 31 <= r_capacity s
       /\ forall c : Z, 7 <= c < 2 ^ 32 ->
            bytes < sizeof_rte_ring + (Z.land c (r_mask s) + 1) * sizeof_voidp.
Proof.
  intros Hc Hin Hmask Hs Hlive. unfold uint32 in Hc.
  split; [intros Hp; apply is_pow2_pos in Hp; lia|].
  pose proof (rte_ring_create_cases count flags w ltac:(unfold uint32; lia) Hs) as Hcases.
  cbv zeta in Hcases.
  assert (Hrounded : (if negb (Z.land flags RING_F_EXACT_SZ =? 0)
                      then rte_align32pow2 (wrap32 (count + 1)) else count) = 0).
  { destruct Hin as [(Hflag & ->)|(Hflag & Hbig)].
    - apply Z.eqb_eq in Hflag. now rewrite Hflag.
    - apply Z.eqb_neq in Hflag. rewrite Hflag. cbn [negb].
      apply rte_align32pow2_wraps; [apply wrap32_range|].
      destruct (Z.eq_dec count (2 ^ 32 - 1)) as [->|Hne]; [left; reflexivity|right].
      rewrite wrap32_small by (unfold uint32; lia). lia. }
  rewrite Hrounded in Hcases. change (0 * 8) with 0 in Hcases.
  rewrite Z.add_0_r in Hcases.
  destruct Hcases as [(Hchk & _)|[(_ & Hp & _)|(_ & Hp & ->)]].
  - exfalso. change (POWEROF2 0) with true in Hchk. cbn [negb orb] in Hchk.
    apply Z.ltb_lt in Hchk. lia.
  - contradiction.
  - cbn [fst snd calls rings]. split; [assumption|].
    eexists. eexists. split; [reflexivity|]. split; [apply lookup_insert_eq|].
    cbn [r_size r_mask r_capacity]. unfold RTE_CACHE_LINE_SIZE, sizeof_voidp.
    pose proof (Z.div_mod (sizeof_rte_ring + 63) 64 ltac:(lia)) as Hdm.
    pose proof (Z.mod_pos_bound (sizeof_rte_ring + 63) 64 ltac:(lia)) as Hmb.
    change (wrap32 (0 - 1)) with (2 ^ 32 - 1).
    split; [lia|]. split; [reflexivity|]. split; [reflexivity|]. split.
    + destruct Hin as [(Hflag & _)|(Hflag & Hbig)].
      * apply Z.eqb_eq in Hflag. rewrite Hflag. cbn [negb]. lia.
      * apply Z.eqb_neq in Hflag. rewrite Hflag. cbn [negb]. exact Hbig.
    + intros c Hcr.
      replace (2 ^ 32 - 1) with (Z.ones 32) by reflexivity.
      rewrite Z.land_ones by lia. rewrite Z.mod_small by lia. lia.
Qed.
End CreateZeroSize.

(** ** The theorems at concrete inputs *)

#[local] Existing Instance dpdk_ring_h.
#[local] Existing Instance bump_host.

Lemma rte_ring_init_exact_size_layout_witness :
  uint32 100
  /\ Z.land 4 (@RING_F_EXACT_SZ dpdk_ring_h) <> 0
  /\ exists s : rte_ring,
       rings (@rte_ring_init dpdk_ring_h Z bump_host 4096 100 4 boot).2 !! 4096
         = Some s
       /\ r_capacity s = 100
       /\ r_mask s = wrap32 (r_size s - 1)
       /\ (100 < 2 ^ 31 ->
           least_pow2_ge (100 + 1) (r_size s)
           /\ 100 < r_size s
           /\ r_mask s = r_size s - 1)
       /\ (100 = 100 -> r_capacity s = 100 /\ r_size s = 128).
Proof.
  assert (Hc : uint32 100) by (unfold uint32; lia).
  assert (Hf : Z.land 4 (@RING_F_EXACT_SZ dpdk_ring_h) <> 0) by (vm_compute; discriminate).
  split; [exact Hc|]. split; [exact Hf|].
  exact (@rte_ring_init_exact_size_layout dpdk_ring_h Z bump_host 4096 100 4 boot Hc Hf).
Defined.

(** C1 as stated fails at [requestedCount = 2^31]: no 32-bit power of two
    exceeds it, and the [size] stored is 0. *)
Lemma rte_ring_init_exact_size_wraps :
  uint32 (2 ^ 31)
  /\ Z.land 4 (@RING_F_EXACT_SZ dpdk_ring_h) <> 0
  /\ (exists s : rte_ring,
        rings (@rte_ring_init dpdk_ring_h Z bump_host 4096 (2 ^ 31) 4 boot).2 !! 4096
          = Some s
        /\ r_size s = 0)
  /\ ~ (exists s : rte_ring,
          rings (@rte_ring_init dpdk_ring_h Z bump_host 4096 (2 ^ 31) 4 boot).2 !! 4096
            = Some s
          /\ least_pow2_ge (2 ^ 31 + 1) (r_size s)
          /\ r_mask s = r_size s - 1
          /\ r_capacity s = 2 ^ 31).
Proof.
  assert (Hf : Z.land 4 (@RING_F_EXACT_SZ dpdk_ring_h) <> 0) by (vm_compute; discriminate).
  split; [unfold uint32; lia|]. split; [exact Hf|].
  rewrite (@rte_ring_init_exact dpdk_ring_h Z bump_host 4096 (2 ^ 31) 4 boot Hf).
  cbn [snd rings]. rewrite lookup_insert_eq. split.
  - eexists. split; [reflexivity|]. reflexivity.
  - intros (s & Hs & ((k & Hk & Hpow) & Hge & _) & _).
    injection Hs as <-. cbn [r_size] in *.
    change (rte_align32pow2 (wrap32 (2 ^ 31 + 1))) with 0 in *. lia.
Qed.

Lemma rte_ring_init_result_witness :
  (@rte_ring_init dpdk_ring_h Z bump_host 4096 100 4 boot).1 = 0
  /\ (@rte_ring_init dpdk_ring_h Z bump_host 4096 6 0 boot).1 = - EINVAL
  /\ (@rte_ring_init dpdk_ring_h Z bump_host 4096 8 0 boot).1 = 0.
Proof.
  assert (H100 : uint32 100) by (unfold uint32; lia).
  assert (H6 : uint32 6) by (unfold uint32; lia).
  assert (H8 : uint32 8) by (unfold uint32; lia).
  assert (Hexact : Z.land 4 (@RING_F_EXACT_SZ dpdk_ring_h) <> 0)
    by (vm_compute; discriminate).
  assert (Hdefault : Z.land 0 (@RING_F_EXACT_SZ dpdk_ring_h) = 0) by reflexivity.
  assert (Hnot : ~ is_pow2 6).
  { intros (k & Hk & Hpow). destruct (Z_lt_le_dec k 3) as [Hlt|Hge].
    - assert (k = 0 \/ k = 1 \/ k = 2) as [-> | [-> | ->]] by lia; discriminate Hpow.
    - assert (2 ^ 3 <= 2 ^ k) by (apply Z.pow_le_mono_r; lia). lia. }
  assert (Hpow : is_pow2 8) by (exists 3; split; [lia|reflexivity]).
  assert (Hle : 8 <= @RTE_RING_SZ_MASK dpdk_ring_h) by (vm_compute; discriminate).
  split; [|split].
  - exact (proj1 (@rte_ring_init_result dpdk_ring_h Z bump_host 4096 100 4 boot H100)
             Hexact).
  - exact (proj1 (proj2 (@rte_ring_init_result dpdk_ring_h Z bump_host 4096 6 0 boot H6))
             Hdefault ltac:(lia) (or_introl Hnot)).
  - exact (proj2 (proj2 (@rte_ring_init_result dpdk_ring_h Z bump_host 4096 8 0 boot H8))
             Hdefault Hpow Hle).
Defined.

(** C3 as stated fails in exact-size mode: a count above
    [RTE_RING_SZ_MASK] is accepted. *)
Lemma rte_ring_init_exact_accepts_large :
  uint32 (2 ^ 31)
  /\ @RTE_RING_SZ_MASK dpdk_ring_h < 2 ^ 31
  /\ (@rte_ring_init dpdk_ring_h Z bump_host 4096 (2 ^ 31) 4 boot).1 = 0
  /\ (@rte_ring_init dpdk_ring_h Z bump_host 4096 (2 ^ 31) 4 boot).1 <> - EINVAL.
Proof.
  split; [unfold uint32; lia|]. split; [reflexivity|].
  split; [reflexivity|]. vm_compute. discriminate.
Qed.

Lemma rte_ring_init_default_layout_witness :
  uint32 8
  /\ is_pow2 8
  /\ 8 <= @RTE_RING_SZ_MASK dpdk_ring_h
  /\ Z.land 3 (@RING_F_EXACT_SZ dpdk_ring_h) = 0
  /\ (@rte_ring_init dpdk_ring_h Z bump_host 4096 8 3 used_block).1 = 0
  /\ exists s : rte_ring,
       rings (@rte_ring_init dpdk_ring_h Z bump_host 4096 8 3 used_block).2 !! 4096
         = Some s
       /\ r_size s = 8
       /\ r_mask s = 8 - 1
       /\ r_capacity s = r_size s - 1
       /\ prod_head s = 0 /\ prod_tail s = 0
       /\ cons_head s = 0 /\ cons_tail s = 0.
Proof.
  assert (Hc : uint32 8) by (unfold uint32; lia).
  assert (Hp : is_pow2 8) by (exists 3; split; [lia|reflexivity]).
  assert (Hle : 8 <= @RTE_RING_SZ_MASK dpdk_ring_h) by (vm_compute; discriminate).
  assert (Hf : Z.land 3 (@RING_F_EXACT_SZ dpdk_ring_h) = 0) by reflexivity.
  split; [exact Hc|]. split; [exact Hp|]. split; [exact Hle|]. split; [exact Hf|].
  exact (@rte_ring_init_default_layout dpdk_ring_h Z bump_host 4096 8 3 used_block
           Hc Hp Hle Hf).
Defined.

Lemma rte_ring_init_sync_modes_witness :
  @__IS_SP dpdk_ring_h <> @__IS_MP dpdk_ring_h
  /\ @__IS_SC dpdk_ring_h <> @__IS_MC dpdk_ring_h
  /\ exists s : rte_ring,
       rings (@rte_ring_init dpdk_ring_h Z bump_host 4096 8 1 boot).2 !! 4096 = Some s
       /\ (prod_single s = __IS_SP <-> Z.land 1 RING_F_SP_ENQ <> 0)
       /\ (prod_single s = __IS_MP <-> Z.land 1 RING_F_SP_ENQ = 0)
       /\ (cons_single s = __IS_SC <-> Z.land 1 RING_F_SC_DEQ <> 0)
       /\ (cons_single s = __IS_MC <-> Z.land 1 RING_F_SC_DEQ = 0).
Proof.
  assert (Hp : @__IS_SP dpdk_ring_h <> @__IS_MP dpdk_ring_h) by (vm_compute; discriminate).
  assert (Hc : @__IS_SC dpdk_ring_h <> @__IS_MC dpdk_ring_h) by (vm_compute; discriminate).
  split; [exact Hp|]. split; [exact Hc|].
  exact (@rte_ring_init_sync_modes dpdk_ring_h Z bump_host 4096 8 1 boot Hp Hc).
Defined.

Lemma rte_ring_init_failure_overwrites_witness :
  rings used_block !! 4096 = Some (Rte_ring 4 8 7 4 6 6 0 2 2 0)
  /\ (@rte_ring_init dpdk_ring_h Z bump_host 4096 6 3 used_block).1 = - EINVAL
  /\ rings (@rte_ring_init dpdk_ring_h Z bump_host 4096 6 3 used_block).2 !! 4096
     = Some (Rte_ring 3 0 0 0 0 0 1 0 0 1).
Proof.
  assert (Hret : (@rte_ring_init dpdk_ring_h Z bump_host 4096 6 3 used_block).1 = - EINVAL)
    by reflexivity.
  split; [reflexivity|]. split; [exact Hret|].
  exact (proj2 (@rte_ring_init_failure_overwrites dpdk_ring_h Z bump_host 4096 6 3
                  used_block) Hret).
Defined.

Lemma rte_ring_get_memsize_accepts_zero_witness :
  0 <= @sizeof_rte_ring dpdk_ring_h < 2 ^ 61
  /\ 0 <= @RTE_RING_SZ_MASK dpdk_ring_h
  /\ ~ is_pow2 0
  /\ (@rte_ring_get_memsize dpdk_ring_h Z bump_host 0 boot).1
     = 64 * ((@sizeof_rte_ring dpdk_ring_h + 63) / 64)
  /\ (@rte_ring_get_memsize dpdk_ring_h Z bump_host 0 boot).1 <> - EINVAL.
Proof.
  assert (Hs : 0 <= @sizeof_rte_ring dpdk_ring_h < 2 ^ 61) by (cbn; lia).
  assert (Hm : 0 <= @RTE_RING_SZ_MASK dpdk_ring_h) by (cbn; lia).
  split; [exact Hs|]. split; [exact Hm|].
  exact (@rte_ring_get_memsize_accepts_zero dpdk_ring_h Z bump_host boot Hs Hm).
Defined.

Lemma rte_ring_get_memsize_aligned_witness :
  uint32 8
  /\ is_pow2 8
  /\ 8 <= @RTE_RING_SZ_MASK dpdk_ring_h
  /\ 0 <= @sizeof_rte_ring dpdk_ring_h < 2 ^ 61
  /\ (@rte_ring_get_memsize dpdk_ring_h Z bump_host 8 boot).1
     = (@rte_ring_get_memsize dpdk_ring_h Z bump_host 8 used_block).1
  /\ (@rte_ring_get_memsize dpdk_ring_h Z bump_host 8 boot).2 = boot
  /\ (@rte_ring_get_memsize dpdk_ring_h Z bump_host 8 boot).1 mod RTE_CACHE_LINE_SIZE = 0
  /\ 8 * sizeof_voidp <= (@rte_ring_get_memsize dpdk_ring_h Z bump_host 8 boot).1.
Proof.
  assert (Hc : uint32 8) by (unfold uint32; lia).
  assert (Hp : is_pow2 8) by (exists 3; split; [lia|reflexivity]).
  assert (Hle : 8 <= @RTE_RING_SZ_MASK dpdk_ring_h) by (cbn; lia).
  assert (Hs : 0 <= @sizeof_rte_ring dpdk_ring_h < 2 ^ 61) by (cbn; lia).
  split; [exact Hc|]. split; [exact Hp|]. split; [exact Hle|]. split; [exact Hs|].
  exact (@rte_ring_get_memsize_aligned dpdk_ring_h Z bump_host 8 boot used_block
           Hc Hp Hle Hs).
Defined.

Lemma rte_ring_create_block_covers_witness :
  uint32 100
  /\ 0 <= @sizeof_rte_ring dpdk_ring_h < 2 ^ 61
  /\ (@rte_ring_create dpdk_ring_h Z bump_host 100 4 boot).1 <> NULL
  /\ exists (bytes : Z) (s : rte_ring),
       calls (@rte_ring_create dpdk_ring_h Z bump_host 100 4 boot).2 =
         calls boot
           ++ [Call_my_malloc bytes (@rte_ring_create dpdk_ring_h Z bump_host 100 4 boot).1]
       /\ bytes =
            (@rte_ring_get_memsize dpdk_ring_h Z bump_host
               (if negb (Z.land 4 RING_F_EXACT_SZ =? 0)
                then rte_align32pow2 (wrap32 (100 + 1)) else 100) boot).1
       /\ rings (@rte_ring_create dpdk_ring_h Z bump_host 100 4 boot).2
            !! (@rte_ring_create dpdk_ring_h Z bump_host 100 4 boot).1 = Some s
       /\ sizeof_rte_ring + r_size s * sizeof_voidp <= bytes
       /\ (0 < r_size s -> forall c : Z,
             sizeof_rte_ring + (Z.land c (r_mask s) + 1) * sizeof_voidp <= bytes).
Proof.
  assert (Hc : uint32 100) by (unfold uint32; lia).
  assert (Hs : 0 <= @sizeof_rte_ring dpdk_ring_h < 2 ^ 61) by (cbn; lia).
  assert (Hp : (@rte_ring_create dpdk_ring_h Z bump_host 100 4 boot).1 <> NULL)
    by (vm_compute; discriminate).
  split; [exact Hc|]. split; [exact Hs|]. split; [exact Hp|].
  exact (@rte_ring_create_block_covers dpdk_ring_h Z bump_host 100 4 boot Hc Hs Hp).
Defined.

Lemma fresh_ring_exact_4_wf : ring_wf (fresh_ring 4 4).
Proof.
  constructor; try reflexivity.
  - exists 3. split; [lia|reflexivity].
  - vm_compute. split; discriminate.
  - vm_compute. split; [discriminate|reflexivity].
Defined.

Lemma enqueue_dequeue_1234_witness :
  ring_wf (fresh_ring 4 4)
  /\ ring_idle (fresh_ring 4 4)
  /\ 4 <= r_capacity (hdr (fresh_ring 4 4))
  /\ enqueue_then_dequeue [1; 2; 3; 4] 4 (fresh_ring 4 4) = Done [1; 2; 3; 4]
  /\ (exists q1 q2 : Ring,
        enqueueFixed [1; 2; 3; 4] (fresh_ring 4 4) = Done (4, q1)
        /\ dequeueFixed 4 q1 = Done ([1; 2; 3; 4], q2))
  /\ (exists q1 q2 : Ring,
        enqueueBurst [1; 2; 3; 4] (fresh_ring 4 4) = Done (4, q1)
        /\ dequeueBurst 4 q1 = Done ([1; 2; 3; 4], q2)).
Proof.
  assert (Hidle : ring_idle (fresh_ring 4 4)) by (repeat split).
  assert (Hcap : 4 <= r_capacity (hdr (fresh_ring 4 4))) by (vm_compute; discriminate).
  split; [exact fresh_ring_exact_4_wf|]. split; [exact Hidle|]. split; [exact Hcap|].
  exact (@enqueue_dequeue_1234 dpdk_ring_h (fresh_ring 4 4)
           fresh_ring_exact_4_wf Hidle Hcap).
Defined.

(** C7 as stated fails on the ring [rte_ring_init] builds for a count of 4
    without exact-size mode: its capacity is 3, the enqueue of four items is
    refused with [RingFull] and the dequeue then finds the ring empty.  It
    also fails on a ring that already holds an item: that item comes out
    first. *)
Lemma enqueue_dequeue_1234_capacity_3 :
  (@rte_ring_init dpdk_ring_h Z bump_host 4096 4 0 boot).1 = 0
  /\ ring_wf (fresh_ring 4 0)
  /\ ring_idle (fresh_ring 4 0)
  /\ r_capacity (hdr (fresh_ring 4 0)) = 3
  /\ enqueueFixed [1; 2; 3; 4] (fresh_ring 4 0) = RingFull
  /\ enqueue_then_dequeue [1; 2; 3; 4] 4 (fresh_ring 4 0) = RingEmpty
  /\ enqueue_then_dequeue [1; 2; 3; 4] 4 (fresh_ring 4 0) <> Done [1; 2; 3; 4]
  /\ enqueue_then_dequeue [1; 2; 3; 4] 4
       (ring_after (fresh_ring 8 0) (enqueueFixed [9] (fresh_ring 8 0)))
     = Done [9; 1; 2; 3].
Proof.
  split; [reflexivity|]. split.
  { constructor; try reflexivity.
    - exists 2. split; [lia|reflexivity].
    - vm_compute. split; discriminate.
    - vm_compute. split; [discriminate|reflexivity]. }
  split; [repeat split|]. split; [reflexivity|]. split; [reflexivity|].
  split; [reflexivity|]. split; [vm_compute; discriminate|]. reflexivity.
Qed.

(** ** The further properties at concrete inputs *)

Lemma POWEROF2_zero_or_power_witness :
  uint32 64 /\ (POWEROF2 64 = true <-> 64 = 0 \/ is_pow2 64).
Proof.
  assert (Hx : uint32 64) by (unfold uint32; lia).
  split; [exact Hx|]. exact (POWEROF2_zero_or_power 64 Hx).
Defined.

Lemma RTE_ALIGN_FLOOR_ssize_witness :
  0 <= 6 <= 62
  /\ - 2 ^ 63 <= -100 < 2 ^ 63
  /\ RTE_ALIGN_FLOOR to_ssize (-100) (2 ^ 6) = 2 ^ 6 * (-100 / 2 ^ 6)
  /\ RTE_ALIGN_FLOOR to_ssize (-100) (2 ^ 6) <= -100
       < RTE_ALIGN_FLOOR to_ssize (-100) (2 ^ 6) + 2 ^ 6
  /\ RTE_ALIGN_FLOOR to_ssize (-100) (2 ^ 6) mod 2 ^ 6 = 0
  /\ (forall mult : Z, mult mod 2 ^ 6 = 0 -> mult <= -100 ->
        mult <= RTE_ALIGN_FLOOR to_ssize (-100) (2 ^ 6)).
Proof.
  assert (Hk : 0 <= 6 <= 62) by lia.
  assert (Hv : - 2 ^ 63 <= -100 < 2 ^ 63) by lia.
  split; [exact Hk|]. split; [exact Hv|]. exact (RTE_ALIGN_FLOOR_ssize (-100) 6 Hk Hv).
Defined.

Lemma RTE_ALIGN_ssize_witness :
  0 <= 6 <= 62
  /\ - 2 ^ 63 <= 200
  /\ 200 + 2 ^ 6 - 1 < 2 ^ 63
  /\ RTE_ALIGN to_ssize 200 (2 ^ 6) = RTE_ALIGN_CEIL to_ssize 200 (2 ^ 6)
  /\ 200 <= RTE_ALIGN to_ssize 200 (2 ^ 6) < 200 + 2 ^ 6
  /\ RTE_ALIGN to_ssize 200 (2 ^ 6) mod 2 ^ 6 = 0
  /\ (forall mult : Z, mult mod 2 ^ 6 = 0 -> 200 <= mult ->
        RTE_ALIGN to_ssize 200 (2 ^ 6) <= mult)
  /\ (200 mod 2 ^ 6 = 0 -> RTE_ALIGN to_ssize 200 (2 ^ 6) = 200).
Proof.
  assert (Hk : 0 <= 6 <= 62) by lia.
  assert (Hlo : - 2 ^ 63 <= 200) by lia.
  assert (Hhi : 200 + 2 ^ 6 - 1 < 2 ^ 63) by lia.
  split; [exact Hk|]. split; [exact Hlo|]. split; [exact Hhi|].
  exact (RTE_ALIGN_ssize 200 6 Hk Hlo Hhi).
Defined.

Lemma RTE_ALIGN_CEIL_uint32_witness :
  0 <= 6 <= 31
  /\ uint32 (2 ^ 32 - 10)
  /\ (2 ^ 32 - 10 <= 2 ^ 32 - 2 ^ 6 ->
        RTE_ALIGN_CEIL wrap32 (2 ^ 32 - 10) (2 ^ 6)
        = 2 ^ 6 * ((2 ^ 32 - 10 + 2 ^ 6 - 1) / 2 ^ 6)
        /\ 2 ^ 32 - 10 <= RTE_ALIGN_CEIL wrap32 (2 ^ 32 - 10) (2 ^ 6)
             < 2 ^ 32 - 10 + 2 ^ 6)
  /\ (2 ^ 32 - 2 ^ 6 < 2 ^ 32 - 10 ->
        RTE_ALIGN_CEIL wrap32 (2 ^ 32 - 10) (2 ^ 6) = 0).
Proof.
  assert (Hk : 0 <= 6 <= 31) by lia.
  assert (Hv : uint32 (2 ^ 32 - 10)) by (unfold uint32; lia).
  split; [exact Hk|]. split; [exact Hv|].
  exact (RTE_ALIGN_CEIL_uint32 (2 ^ 32 - 10) 6 Hk Hv).
Defined.

Lemma rte_combine32ms1b_fills_witness :
  0 < 0x1234 < 2 ^ 32
  /\ rte_combine32ms1b 0x1234 = 2 ^ (Z.log2 0x1234 + 1) - 1
  /\ Z.log2 (rte_combine32ms1b 0x1234) = Z.log2 0x1234
  /\ 0x1234 <= rte_combine32ms1b 0x1234 <= 2 * 0x1234 - 1
  /\ (forall i : Z, 0 <= i <= Z.log2 0x1234 ->
        Z.testbit (rte_combine32ms1b 0x1234) i = true).
Proof.
  assert (Hx : 0 < 0x1234 < 2 ^ 32) by lia.
  split; [exact Hx|]. exact (rte_combine32ms1b_fills 0x1234 Hx).
Defined.

Lemma rte_combine32ms1b_idempotent_witness :
  uint32 0x1234
  /\ uint32 (rte_combine32ms1b 0x1234)
  /\ rte_combine32ms1b (rte_combine32ms1b 0x1234) = rte_combine32ms1b 0x1234.
Proof.
  assert (Hx : uint32 0x1234) by (unfold uint32; lia).
  split; [exact Hx|]. exact (rte_combine32ms1b_idempotent 0x1234 Hx).
Defined.

Lemma rte_align32pow2_next_power_witness :
  1 <= 100 <= 2 ^ 31
  /\ least_pow2_ge 100 (rte_align32pow2 100)
  /\ 100 <= rte_align32pow2 100 < 2 * 100.
Proof.
  assert (Hx : 1 <= 100 <= 2 ^ 31) by lia.
  split; [exact Hx|]. exact (rte_align32pow2_next_power 100 Hx).
Defined.

Lemma rte_align32pow2_fixed_points_witness :
  uint32 96
  /\ (rte_align32pow2 96 = 96 <-> POWEROF2 96 = true)
  /\ rte_align32pow2 (rte_align32pow2 96) = rte_align32pow2 96.
Proof.
  assert (Hx : uint32 96) by (unfold uint32; lia).
  split; [exact Hx|]. exact (rte_align32pow2_fixed_points 96 Hx).
Defined.

Lemma rte_align32pow2_zero_iff_witness :
  uint32 (2 ^ 31 + 5)
  /\ (rte_align32pow2 (2 ^ 31 + 5) = 0 <-> 2 ^ 31 + 5 = 0 \/ 2 ^ 31 < 2 ^ 31 + 5).
Proof.
  assert (Hx : uint32 (2 ^ 31 + 5)) by (unfold uint32; lia).
  split; [exact Hx|]. exact (rte_align32pow2_zero_iff (2 ^ 31 + 5) Hx).
Defined.

Lemma rte_align32pow2_monotone_witness :
  1 <= 5 /\ 5 <= 100 /\ 100 <= 2 ^ 31
  /\ rte_align32pow2 5 <= rte_align32pow2 100.
Proof.
  assert (H1 : 1 <= 5) by lia.
  assert (H2 : 5 <= 100) by lia.
  assert (H3 : 100 <= 2 ^ 31) by lia.
  split; [exact H1|]. split; [exact H2|]. split; [exact H3|].
  exact (rte_align32pow2_monotone 5 100 H1 H2 H3).
Defined.

Lemma rte_ring_get_memsize_padding_witness :
  uint32 4
  /\ (4 = 0 \/ is_pow2 4)
  /\ 4 <= @RTE_RING_SZ_MASK dpdk_ring_h
  /\ 0 <= @sizeof_rte_ring dpdk_ring_h < 2 ^ 61
  /\ sizeof_rte_ring + 4 * sizeof_voidp
       <= (@rte_ring_get_memsize dpdk_ring_h Z bump_host 4 boot).1
       < sizeof_rte_ring + 4 * sizeof_voidp + RTE_CACHE_LINE_SIZE
  /\ (sizeof_rte_ring mod RTE_CACHE_LINE_SIZE = 0 -> 8 <= 4 ->
      (@rte_ring_get_memsize dpdk_ring_h Z bump_host 4 boot).1
      = sizeof_rte_ring + 4 * sizeof_voidp)
  /\ (sizeof_rte_ring mod RTE_CACHE_LINE_SIZE = 0 -> 0 < 4 < 8 ->
      (@rte_ring_get_memsize dpdk_ring_h Z bump_host 4 boot).1
      = sizeof_rte_ring + RTE_CACHE_LINE_SIZE).
Proof.
  assert (Hc : uint32 4) by (unfold uint32; lia).
  assert (Hp : 4 = 0 \/ is_pow2 4) by (right; exists 2; split; [lia|reflexivity]).
  assert (Hle : 4 <= @RTE_RING_SZ_MASK dpdk_ring_h) by (cbn; lia).
  assert (Hs : 0 <= @sizeof_rte_ring dpdk_ring_h < 2 ^ 61) by (cbn; lia).
  split; [exact Hc|]. split; [exact Hp|]. split; [exact Hle|]. split; [exact Hs|].
  exact (@rte_ring_get_memsize_padding dpdk_ring_h Z bump_host 4 boot Hc Hp Hle Hs).
Defined.

Lemma rte_ring_get_memsize_monotone_witness :
  uint32 4 /\ uint32 1024
  /\ (4 = 0 \/ is_pow2 4) /\ (1024 = 0 \/ is_pow2 1024)
  /\ 4 <= 1024 /\ 1024 <= @RTE_RING_SZ_MASK dpdk_ring_h
  /\ 0 <= @sizeof_rte_ring dpdk_ring_h < 2 ^ 61
  /\ (@rte_ring_get_memsize dpdk_ring_h Z bump_host 4 boot).1
     <= (@rte_ring_get_memsize dpdk_ring_h Z bump_host 1024 used_block).1.
Proof.
  assert (H1 : uint32 4) by (unfold uint32; lia).
  assert (H2 : uint32 1024) by (unfold uint32; lia).
  assert (Hp1 : 4 = 0 \/ is_pow2 4) by (right; exists 2; split; [lia|reflexivity]).
  assert (Hp2 : 1024 = 0 \/ is_pow2 1024) by (right; exists 10; split; [lia|reflexivity]).
  assert (Hle : 4 <= 1024) by lia.
  assert (Hm : 1024 <= @RTE_RING_SZ_MASK dpdk_ring_h) by (cbn; lia).
  assert (Hs : 0 <= @sizeof_rte_ring dpdk_ring_h < 2 ^ 61) by (cbn; lia).
  split; [exact H1|]. split; [exact H2|]. split; [exact Hp1|]. split; [exact Hp2|].
  split; [exact Hle|]. split; [exact Hm|]. split; [exact Hs|].
  exact (@rte_ring_get_memsize_monotone dpdk_ring_h Z bump_host 4 1024 boot used_block
           H1 H2 Hp1 Hp2 Hle Hm Hs).
Defined.

Lemma rte_ring_init_consistent_witness :
  uint32 100
  /\ (@rte_ring_init dpdk_ring_h Z bump_host 4096 100 4 boot).1 = 0
  /\ (Z.land 4 (@RING_F_EXACT_SZ dpdk_ring_h) = 0 -> 0 < 100)
  /\ (Z.land 4 (@RING_F_EXACT_SZ dpdk_ring_h) <> 0 -> 100 < 2 ^ 31)
  /\ exists s : rte_ring,
       rings (@rte_ring_init dpdk_ring_h Z bump_host 4096 100 4 boot).2 !! 4096 = Some s
       /\ is_pow2 (r_size s) /\ r_size s <= 2 ^ 31
       /\ r_mask s = r_size s - 1
       /\ 0 <= r_capacity s <= r_mask s
       /\ r_size s <= 2 * r_capacity s + 1
       /\ r_flags s = 4
       /\ prod_head s = 0 /\ prod_tail s = 0 /\ cons_head s = 0 /\ cons_tail s = 0.
Proof.
  assert (Hc : uint32 100) by (unfold uint32; lia).
  assert (Hret : (@rte_ring_init dpdk_ring_h Z bump_host 4096 100 4 boot).1 = 0)
    by reflexivity.
  assert (Hd : Z.land 4 (@RING_F_EXACT_SZ dpdk_ring_h) = 0 -> 0 < 100) by (intros _; lia).
  assert (He : Z.land 4 (@RING_F_EXACT_SZ dpdk_ring_h) <> 0 -> 100 < 2 ^ 31)
    by (intros _; lia).
  split; [exact Hc|]. split; [exact Hret|]. split; [exact Hd|]. split; [exact He|].
  exact (@rte_ring_init_consistent dpdk_ring_h Z bump_host 4096 100 4 boot Hc Hret Hd He).
Defined.

Lemma rte_ring_init_exact_matches_default_witness :
  0 <= 3 <= 31
  /\ 2 ^ 3 <= @RTE_RING_SZ_MASK dpdk_ring_h
  /\ Z.land 4 (@RING_F_EXACT_SZ dpdk_ring_h) <> 0
  /\ Z.land 0 (@RING_F_EXACT_SZ dpdk_ring_h) = 0
  /\ (@rte_ring_init dpdk_ring_h Z bump_host 4096 (2 ^ 3 - 1) 4 boot).1 = 0
  /\ (@rte_ring_init dpdk_ring_h Z bump_host 4096 (2 ^ 3) 0 used_block).1 = 0
  /\ exists s1 s2 : rte_ring,
       rings (@rte_ring_init dpdk_ring_h Z bump_host 4096 (2 ^ 3 - 1) 4 boot).2 !! 4096
         = Some s1
       /\ rings (@rte_ring_init dpdk_ring_h Z bump_host 4096 (2 ^ 3) 0 used_block).2 !! 4096
          = Some s2
       /\ r_size s1 = r_size s2
       /\ r_mask s1 = r_mask s2
       /\ r_capacity s1 = r_capacity s2
       /\ r_capacity s1 = 2 ^ 3 - 1.
Proof.
  assert (Hk : 0 <= 3 <= 31) by lia.
  assert (Hm : 2 ^ 3 <= @RTE_RING_SZ_MASK dpdk_ring_h) by (cbn; lia).
  assert (He : Z.land 4 (@RING_F_EXACT_SZ dpdk_ring_h) <> 0) by (vm_compute; discriminate).
  assert (Hd : Z.land 0 (@RING_F_EXACT_SZ dpdk_ring_h) = 0) by reflexivity.
  split; [exact Hk|]. split; [exact Hm|]. split; [exact He|]. split; [exact Hd|].
  exact (@rte_ring_init_exact_matches_default dpdk_ring_h Z bump_host 3 4096 4096 4 0
           boot used_block Hk Hm He Hd).
Defined.

Lemma rte_ring_init_exact_power_doubles_witness :
  is_pow2 8
  /\ 8 < 2 ^ 31
  /\ Z.land 4 (@RING_F_EXACT_SZ dpdk_ring_h) <> 0
  /\ exists s : rte_ring,
       rings (@rte_ring_init dpdk_ring_h Z bump_host 4096 8 4 boot).2 !! 4096 = Some s
       /\ r_size s = 2 * 8
       /\ r_mask s = 2 * 8 - 1
       /\ r_capacity s = 8.
Proof.
  assert (Hp : is_pow2 8) by (exists 3; split; [lia|reflexivity]).
  assert (Hlt : 8 < 2 ^ 31) by lia.
  assert (He : Z.land 4 (@RING_F_EXACT_SZ dpdk_ring_h) <> 0) by (vm_compute; discriminate).
  split; [exact Hp|]. split; [exact Hlt|]. split; [exact He|].
  exact (@rte_ring_init_exact_power_doubles dpdk_ring_h Z bump_host 4096 8 4 boot
           Hp Hlt He).
Defined.

Lemma rte_ring_init_exact_overflow_witness :
  uint32 (2 ^ 31 + 7)
  /\ 2 ^ 31 <= 2 ^ 31 + 7
  /\ Z.land 4 (@RING_F_EXACT_SZ dpdk_ring_h) <> 0
  /\ (@rte_ring_init dpdk_ring_h Z bump_host 4096 (2 ^ 31 + 7) 4 boot).1 = 0
  /\ exists s : rte_ring,
       rings (@rte_ring_init dpdk_ring_h Z bump_host 4096 (2 ^ 31 + 7) 4 boot).2 !! 4096
         = Some s
       /\ r_size s = 0
       /\ r_mask s = 2 ^ 32 - 1
       /\ r_capacity s = 2 ^ 31 + 7.
Proof.
  assert (Hc : uint32 (2 ^ 31 + 7)) by (unfold uint32; lia).
  assert (Hb : 2 ^ 31 <= 2 ^ 31 + 7) by lia.
  assert (He : Z.land 4 (@RING_F_EXACT_SZ dpdk_ring_h) <> 0) by (vm_compute; discriminate).
  split; [exact Hc|]. split; [exact Hb|]. split; [exact He|].
  exact (@rte_ring_init_exact_overflow dpdk_ring_h Z bump_host 4096 (2 ^ 31 + 7) 4 boot
           Hc Hb He).
Defined.

Lemma rte_ring_create_succeeds_iff_witness :
  uint32 100
  /\ 0 <= @sizeof_rte_ring dpdk_ring_h < 2 ^ 61
  /\ ((@rte_ring_create dpdk_ring_h Z bump_host 100 4 boot).1 <> NULL
      <-> (rte_align32pow2 (wrap32 (100 + 1)) = 0
           \/ is_pow2 (rte_align32pow2 (wrap32 (100 + 1))))
          /\ rte_align32pow2 (wrap32 (100 + 1)) <= @RTE_RING_SZ_MASK dpdk_ring_h
          /\ (@my_malloc Z bump_host
                (@rte_ring_get_memsize dpdk_ring_h Z bump_host
                   (rte_align32pow2 (wrap32 (100 + 1))) boot).1 (env boot)).1 <> NULL).
Proof.
  assert (Hc : uint32 100) by (unfold uint32; lia).
  assert (Hs : 0 <= @sizeof_rte_ring dpdk_ring_h < 2 ^ 61) by (cbn; lia).
  split; [exact Hc|]. split; [exact Hs|].
  exact (@rte_ring_create_succeeds_iff dpdk_ring_h Z bump_host 100 4 boot Hc Hs).
Defined.

Lemma rte_ring_create_no_free_no_leak_witness :
  uint32 6
  /\ 0 <= @sizeof_rte_ring dpdk_ring_h < 2 ^ 61
  /\ exists made : list call,
       calls (@rte_ring_create dpdk_ring_h Z bump_host 6 0 boot).2 = calls boot ++ made
       /\ (forall ptr : Z, ~ In (Call_my_free ptr) made)
       /\ ((@rte_ring_create dpdk_ring_h Z bump_host 6 0 boot).1 = NULL ->
           rings (@rte_ring_create dpdk_ring_h Z bump_host 6 0 boot).2 = rings boot
           /\ forall size ptr : Z, In (Call_my_malloc size ptr) made -> ptr = NULL)
       /\ ((@rte_ring_create dpdk_ring_h Z bump_host 6 0 boot).1 <> NULL ->
           forall other : Z,
             other <> (@rte_ring_create dpdk_ring_h Z bump_host 6 0 boot).1 ->
             rings (@rte_ring_create dpdk_ring_h Z bump_host 6 0 boot).2 !! other
             = rings boot !! other).
Proof.
  assert (Hc : uint32 6) by (unfold uint32; lia).
  assert (Hs : 0 <= @sizeof_rte_ring dpdk_ring_h < 2 ^ 61) by (cbn; lia).
  split; [exact Hc|]. split; [exact Hs|].
  exact (@rte_ring_create_no_free_no_leak dpdk_ring_h Z bump_host 6 0 boot Hc Hs).
Defined.

Lemma rte_ring_create_then_free_witness :
  uint32 8
  /\ 0 <= @sizeof_rte_ring dpdk_ring_h < 2 ^ 61
  /\ (@rte_ring_create dpdk_ring_h Z bump_host 8 0 boot).1 <> NULL
  /\ exists bytes : Z,
       calls (@rte_ring_free Z bump_host
                (@rte_ring_create dpdk_ring_h Z bump_host 8 0 boot).1
                (@rte_ring_create dpdk_ring_h Z bump_host 8 0 boot).2).2
         = calls boot
             ++ [Call_my_malloc bytes (@rte_ring_create dpdk_ring_h Z bump_host 8 0 boot).1;
                 Call_my_free (@rte_ring_create dpdk_ring_h Z bump_host 8 0 boot).1]
       /\ rings (@rte_ring_free Z bump_host
                   (@rte_ring_create dpdk_ring_h Z bump_host 8 0 boot).1
                   (@rte_ring_create dpdk_ring_h Z bump_host 8 0 boot).2).2
            !! (@rte_ring_create dpdk_ring_h Z bump_host 8 0 boot).1 = None
       /\ forall other : Z,
            other <> (@rte_ring_create dpdk_ring_h Z bump_host 8 0 boot).1 ->
            rings (@rte_ring_free Z bump_host
                     (@rte_ring_create dpdk_ring_h Z bump_host 8 0 boot).1
                     (@rte_ring_create dpdk_ring_h Z bump_host 8 0 boot).2).2 !! other
            = rings boot !! other.
Proof.
  assert (Hc : uint32 8) by (unfold uint32; lia).
  assert (Hs : 0 <= @sizeof_rte_ring dpdk_ring_h < 2 ^ 61) by (cbn; lia).
  assert (Hp : (@rte_ring_create dpdk_ring_h Z bump_host 8 0 boot).1 <> NULL)
    by (vm_compute; discriminate).
  split; [exact Hc|]. split; [exact Hs|]. split; [exact Hp|].
  exact (@rte_ring_create_then_free dpdk_ring_h Z bump_host 8 0 boot Hc Hs Hp).
Defined.

Lemma rte_ring_create_refuses_size_witness :
  uint32 6
  /\ ((Z.land 0 (@RING_F_EXACT_SZ dpdk_ring_h) = 0 /\ 0 < 6
       /\ (~ is_pow2 6 \/ @RTE_RING_SZ_MASK dpdk_ring_h < 6))
      \/ (Z.land 0 (@RING_F_EXACT_SZ dpdk_ring_h) <> 0
          /\ @RTE_RING_SZ_MASK dpdk_ring_h <= 6 < 2 ^ 31))
  /\ (@rte_ring_create dpdk_ring_h Z bump_host 6 0 boot).1 = NULL
  /\ rings (@rte_ring_create dpdk_ring_h Z bump_host 6 0 boot).2 = rings boot
  /\ calls (@rte_ring_create dpdk_ring_h Z bump_host 6 0 boot).2 =
       calls boot
         ++ [Call_my_printf_error invalid_size_memsize [@RTE_RING_SZ_MASK dpdk_ring_h]].
Proof.
  assert (Hc : uint32 6) by (unfold uint32; lia).
  assert (Hnot : ~ is_pow2 6).
  { intros (k & Hk & Hpow). destruct (Z_lt_le_dec k 3) as [Hlt|Hge].
    - assert (k = 0 \/ k = 1 \/ k = 2) as [-> | [-> | ->]] by lia; discriminate Hpow.
    - assert (2 ^ 3 <= 2 ^ k) by (apply Z.pow_le_mono_r; lia). lia. }
  assert (Hbad : (Z.land 0 (@RING_F_EXACT_SZ dpdk_ring_h) = 0 /\ 0 < 6
                  /\ (~ is_pow2 6 \/ @RTE_RING_SZ_MASK dpdk_ring_h < 6))
                 \/ (Z.land 0 (@RING_F_EXACT_SZ dpdk_ring_h) <> 0
                     /\ @RTE_RING_SZ_MASK dpdk_ring_h <= 6 < 2 ^ 31)).
  { left. split; [reflexivity|]. split; [lia|]. left. exact Hnot. }
  split; [exact Hc|]. split; [exact Hbad|].
  exact (@rte_ring_create_refuses_size dpdk_ring_h Z bump_host 6 0 boot Hc Hbad).
Defined.

Lemma rte_ring_create_exact_overflow_witness :
  uint32 (2 ^ 31)
  /\ 2 ^ 31 <= 2 ^ 31
  /\ Z.land 4 (@RING_F_EXACT_SZ dpdk_ring_h) <> 0
  /\ 0 <= @RTE_RING_SZ_MASK dpdk_ring_h
  /\ 0 <= @sizeof_rte_ring dpdk_ring_h < 2 ^ 61
  /\ (@my_malloc Z bump_host (64 * ((@sizeof_rte_ring dpdk_ring_h + 63) / 64))
        (env boot)).1 <> NULL
  /\ (@rte_ring_create dpdk_ring_h Z bump_host (2 ^ 31) 4 boot).1 <> NULL
  /\ calls (@rte_ring_create dpdk_ring_h Z bump_host (2 ^ 31) 4 boot).2 =
       calls boot
         ++ [Call_my_malloc (64 * ((@sizeof_rte_ring dpdk_ring_h + 63) / 64))
               (@rte_ring_create dpdk_ring_h Z bump_host (2 ^ 31) 4 boot).1]
  /\ exists s : rte_ring,
       rings (@rte_ring_create dpdk_ring_h Z bump_host (2 ^ 31) 4 boot).2
         !! (@rte_ring_create dpdk_ring_h Z bump_host (2 ^ 31) 4 boot).1 = Some s
       /\ r_size s = 0
       /\ r_mask s = 2 ^ 32 - 1
       /\ r_capacity s = 2 ^ 31.
Proof.
  assert (Hc : uint32 (2 ^ 31)) by (unfold uint32; lia).
  assert (Hb : 2 ^ 31 <= 2 ^ 31) by lia.
  assert (He : Z.land 4 (@RING_F_EXACT_SZ dpdk_ring_h) <> 0) by (vm_compute; discriminate).
  assert (Hm : 0 <= @RTE_RING_SZ_MASK dpdk_ring_h) by (cbn; lia).
  assert (Hs : 0 <= @sizeof_rte_ring dpdk_ring_h < 2 ^ 61) by (cbn; lia).
  assert (Hl : (@my_malloc Z bump_host (64 * ((@sizeof_rte_ring dpdk_ring_h + 63) / 64))
                  (env boot)).1 <> NULL) by (vm_compute; discriminate).
  split; [exact Hc|]. split; [exact Hb|]. split; [exact He|]. split; [exact Hm|].
  split; [exact Hs|]. split; [exact Hl|].
  exact (@rte_ring_create_exact_overflow dpdk_ring_h Z bump_host (2 ^ 31) 4 boot
           Hc Hb He Hm Hs Hl).
Defined.

Lemma rte_ring_create_zero_size_uncovered_witness :
  uint32 0
  /\ ((Z.land 0 (@RING_F_EXACT_SZ dpdk_ring_h) = 0 /\ 0 = 0)
      \/ (Z.land 0 (@RING_F_EXACT_SZ dpdk_ring_h) <> 0 /\ 2 ^ 31 <= 0))
  /\ 0 <= @RTE_RING_SZ_MASK dpdk_ring_h
  /\ 0 <= @sizeof_rte_ring dpdk_ring_h < 2 ^ 61
  /\ (@my_malloc Z bump_host (64 * ((@sizeof_rte_ring dpdk_ring_h + 63) / 64))
        (env boot)).1 <> NULL
  /\ ~ is_pow2 0
  /\ (@rte_ring_create dpdk_ring_h Z bump_host 0 0 boot).1 <> NULL
  /\ exists (bytes : Z) (s : rte_ring),
       calls (@rte_ring_create dpdk_ring_h Z bump_host 0 0 boot).2 =
         calls boot
           ++ [Call_my_malloc bytes (@rte_ring_create dpdk_ring_h Z bump_host 0 0 boot).1]
       /\ rings (@rte_ring_create dpdk_ring_h Z bump_host 0 0 boot).2
            !! (@rte_ring_create dpdk_ring_h Z bump_host 0 0 boot).1 = Some s
       /\ bytes < @sizeof_rte_ring dpdk_ring_h + RTE_CACHE_LINE_SIZE
       /\ r_size s = 0
       /\ r_mask s = 2 ^ 32 - 1
       /\ 2 ^ 31 <= r_capacity s
       /\ forall c : Z, 7 <= c < 2 ^ 32 ->
            bytes < @sizeof_rte_ring dpdk_ring_h + (Z.land c (r_mask s) + 1) * sizeof_voidp.
Proof.
  assert (Hc : uint32 0) by (unfold uint32; lia).
  assert (Hin : (Z.land 0 (@RING_F_EXACT_SZ dpdk_ring_h) = 0 /\ 0 = 0)
                \/ (Z.land 0 (@RING_F_EXACT_SZ dpdk_ring_h) <> 0 /\ 2 ^ 31 <= 0))
    by (left; split; reflexivity).
  assert (Hm : 0 <= @RTE_RING_SZ_MASK dpdk_ring_h) by (cbn; lia).
  assert (Hs : 0 <= @sizeof_rte_ring dpdk_ring_h < 2 ^ 61) by (cbn; lia).
  assert (Hl : (@my_malloc Z bump_host (64 * ((@sizeof_rte_ring dpdk_ring_h + 63) / 64))
                  (env boot)).1 <> NULL) by (vm_compute; discriminate).
  split; [exact Hc|]. split; [exact Hin|]. split; [exact Hm|]. split; [exact Hs|].
  split; [exact Hl|].
  exact (@rte_ring_create_zero_size_uncovered dpdk_ring_h Z bump_host 0 0 boot
           Hc Hin Hm Hs Hl).
Defined.
